(** * LASKO icon composer: a shallow embedding of
      [LASKO/scripts/compose_lasko_icon.py] and the properties of its
      border flood fill, background tints, scaling and orchestration. *)

From Stdlib Require Import ZArith Floats.
From stdpp Require Import base option list numbers strings gmap.

Open Scope Z_scope.

(** ** Pixels, images and Python-style indexing *)

(** An RGBA pixel, the 4-tuple [(r, g, b, a)] that [px[x, y]] yields. *)
Record Pixel := RGBA { red : Z; green : Z; blue : Z; alpha : Z }.

Definition coord := (Z * Z)%type.

(** A PIL image: [size] is [(width, height)], [rows] the pixel rows from
    top to bottom. *)
Record Image := mkImage { size : Z * Z; rows : list (list Pixel) }.

Definition width (im : Image) : Z := (size im).1.
Definition height (im : Image) : Z := (size im).2.

(** Both Python lists and PIL pixel access count a negative index from the
    end and raise [IndexError] (here [None]) outside the range. *)
Definition wrap (n i : Z) : Z := if i <? 0 then n + i else i.
Definition in_range (n i : Z) : bool := (0 <=? i) && (i <? n).

(** [px[x, y]] *)
Definition px_get (im : Image) (c : coord) : option Pixel :=
  let x := wrap (width im) c.1 in
  let y := wrap (height im) c.2 in
  if in_range (width im) x && in_range (height im) y then
    row ← rows im !! Z.to_nat y; row !! Z.to_nat x
  else None.

(** [px[x, y] = p] *)
Definition px_set (im : Image) (c : coord) (p : Pixel) : option Image :=
  let x := wrap (width im) c.1 in
  let y := wrap (height im) c.2 in
  if in_range (width im) x && in_range (height im) y then
    row ← rows im !! Z.to_nat y;
    Some (mkImage (size im) (<[Z.to_nat y := <[Z.to_nat x := p]> row]> (rows im)))
  else None.

(** [l[i]] and [l[i] = v] on a Python list. *)
Definition py_getitem {A} (l : list A) (i : Z) : option A :=
  let j := wrap (Z.of_nat (length l)) i in
  if in_range (Z.of_nat (length l)) j then l !! Z.to_nat j else None.

Definition py_setitem {A} (l : list A) (i : Z) (v : A) : option (list A) :=
  let j := wrap (Z.of_nat (length l)) i in
  if in_range (Z.of_nat (length l)) j then Some (<[Z.to_nat j := v]> l) else None.

(** [range(n)] *)
Definition range (n : Z) : list Z := seqZ 0 n.

(** A [for] loop whose body may raise. *)
Fixpoint for_each {A S} (l : list A) (body : A → S → option S) (s : S) : option S :=
  match l with
  | [] => Some s
  | a :: l' => s' ← body a s; for_each l' body s'
  end.

(** ** [remove_outer_white_only] *)

Definition TH : Z := 245.

Definition white_pixel (p : Pixel) : bool :=
  (0 <? alpha p) && (TH <=? red p) && (TH <=? green p) && (TH <=? blue p).

(** The nested [is_white(x, y)]; it reads the image as it currently is. *)
Definition is_white (px : Image) (c : coord) : option bool :=
  white_pixel <$> px_get px c.

(** [visited[y][x]] and [visited[y][x] = True]. The rows of [visited] are
    built one by one by the list comprehension, so no two of them alias. *)
Definition visited_get (visited : list (list bool)) (c : coord) : option bool :=
  row ← py_getitem visited c.2; py_getitem row c.1.

Definition visited_mark (visited : list (list bool)) (c : coord)
  : option (list (list bool)) :=
  row ← py_getitem visited c.2;
  row' ← py_setitem row c.1 true;
  py_setitem visited c.2 row'.

(** One seeding test: [if is_white(c): q.append(c); visited[c] = True]. *)
Definition seed (px : Image) (c : coord) (s : list (list bool) * list coord)
  : option (list (list bool) * list coord) :=
  w ← is_white px c;
  if w : bool then
    visited' ← visited_mark s.1 c; Some (visited', s.2 ++ [c])
  else Some s.

(** Lines 27-44: the fresh [visited] grid, the empty queue and the two
    seeding loops over the border. *)
Definition seed_borders (px : Image) : option (list (list bool) * list coord) :=
  let w0 := width px in
  let h0 := height px in
  let visited := replicate (Z.to_nat h0) (replicate (Z.to_nat w0) false) in
  s ← for_each (range w0)
        (λ x s, s' ← seed px (x, 0) s; seed px (x, h0 - 1) s') (visited, []);
  for_each (range h0)
    (λ y s, s' ← seed px (0, y) s; seed px (w0 - 1, y) s') s.

(** The state of the flood-fill loop. [dequeued] is a ghost log of the
    coordinates returned by [q.popleft()], in order. *)
Record State := mkState {
  px : Image;
  visited : list (list bool);
  q : list coord;
  dequeued : list coord
}.

Definition neighbours (c : coord) : list coord :=
  [(c.1 - 1, c.2); (c.1 + 1, c.2); (c.1, c.2 - 1); (c.1, c.2 + 1)].

(** The body of the inner [for nx, ny in ...] loop. *)
Definition visit (w0 h0 : Z) (n : coord) (st : State) : option State :=
  if in_range w0 n.1 && in_range h0 n.2 then
    v ← visited_get (visited st) n;
    if negb v then
      w ← is_white (px st) n;
      if w : bool then
        visited' ← visited_mark (visited st) n;
        Some (mkState (px st) visited' (q st ++ [n]) (dequeued st))
      else Some st
    else Some st
  else Some st.

(** The body of the [while q] loop once [c] has been popped. *)
Definition process (w0 h0 : Z) (c : coord) (st : State) : option State :=
  p ← px_get (px st) c;
  px' ← px_set (px st) c (RGBA (red p) (green p) (blue p) 0);
  for_each (neighbours c) (visit w0 h0)
    (mkState px' (visited st) (q st) (dequeued st)).

Inductive exit := Returned | IndexError | OutOfFuel.

(** [while q: ...]. An [IndexError] in the body leaves the loop; the model
    then reports the state at the start of that iteration. On an image
    whose buffer has the shape its [size] says this branch is never taken
    ([bfs_inv]). *)
Fixpoint bfs (fuel : nat) (w0 h0 : Z) (st : State) : exit * State :=
  match q st with
  | [] => (Returned, st)
  | c :: rest =>
    match fuel with
    | O => (OutOfFuel, st)
    | S fuel' =>
      match process w0 h0 c
              (mkState (px st) (visited st) rest (dequeued st ++ [c])) with
      | Some st' => bfs fuel' w0 h0 st'
      | None => (IndexError, st)
      end
    end
  end.

(** Number of [False] entries in [visited]. *)
Fixpoint nfalse (l : list bool) : nat :=
  match l with
  | [] => O
  | b :: l' => ((if b then 0 else 1) + nfalse l')%nat
  end.

Fixpoint unvisited (g : list (list bool)) : nat :=
  match g with
  | [] => O
  | r :: g' => (nfalse r + unvisited g')%nat
  end.

(** The whole call, with the loop state it ends in. The fuel is the number
    of queued coordinates plus the number of unvisited cells, which
    [bfs_fuel_enough] shows is never exhausted. *)
Definition remove_outer_white_only_run (glyph : Image) : exit * State :=
  match seed_borders glyph with
  | None => (IndexError, mkState glyph [] [] [])
  | Some (visited, q) =>
    bfs (length q + unvisited visited) (width glyph) (height glyph)
      (mkState glyph visited q [])
  end.

(** How the call ends, and the pixels of the glyph object afterwards (the
    function mutates its argument and returns that same object). *)
Definition remove_outer_white_only (glyph : Image) : exit * Image :=
  let r := remove_outer_white_only_run glyph in (r.1, px r.2).

(** ** Grids: the common core of pixel rows and the [visited] table *)

Definition inb (w h : Z) (c : coord) : Prop := 0 ≤ c.1 < w ∧ 0 ≤ c.2 < h.

Definition cell {A} (g : list (list A)) (c : coord) : option A :=
  row ← g !! Z.to_nat c.2; row !! Z.to_nat c.1.

Definition cell_upd {A} (g : list (list A)) (c : coord) (v : A) : list (list A) :=
  match g !! Z.to_nat c.2 with
  | Some row => <[Z.to_nat c.2 := <[Z.to_nat c.1 := v]> row]> g
  | None => g
  end.

Definition grid_dims {A} (w h : Z) (g : list (list A)) : Prop :=
  length g = Z.to_nat h ∧ Forall (λ r, length r = Z.to_nat w) g.

(** What every PIL image satisfies: non-negative dimensions and a pixel
    buffer of exactly that shape. *)
Definition wf_image (im : Image) : Prop :=
  0 ≤ width im ∧ 0 ≤ height im ∧ grid_dims (width im) (height im) (rows im).

(** ** Vocabulary of the flood-fill properties *)

(** [c] lies on the outermost row or column of a [w] by [h] image. *)
Definition on_border (w h : Z) (c : coord) : Prop :=
  c.1 = 0 ∨ c.1 = w - 1 ∨ c.2 = 0 ∨ c.2 = h - 1.

(** [c] is a pixel of [im] that satisfies the white predicate. *)
Definition white_at (im : Image) (c : coord) : Prop :=
  inb (width im) (height im) c ∧ is_white im c = Some true.

(** There is a 4-connected path of white pixels of [im] from [c] to the
    border: either [c] is itself a white border pixel, or [c] is white and
    one of its four neighbours has such a path. *)
Inductive border_connected (im : Image) : coord → Prop :=
| bc_border c :
    white_at im c → on_border (width im) (height im) c → border_connected im c
| bc_step c c' :
    white_at im c → c' ∈ neighbours c → border_connected im c' →
    border_connected im c.

(** The same as an explicit path: [c :: path] is a sequence of white
    pixels, each one of the four neighbours of the one before, and its last
    pixel lies on the border. *)
Fixpoint white_path_to_border (im : Image) (c : coord) (path : list coord) : Prop :=
  white_at im c ∧
  match path with
  | [] => on_border (width im) (height im) c
  | c' :: rest => c' ∈ neighbours c ∧ white_path_to_border im c' rest
  end.

(** The pixel written back by the loop: same colour, opacity zero. *)
Definition transparent (p : Pixel) : Pixel := RGBA (red p) (green p) (blue p) 0.

(** ** Loop measure and invariant of the flood fill *)

(** The loop measure: queued coordinates plus unvisited cells. *)
Definition measure (st : State) : nat := (length (q st) + unvisited (visited st))%nat.

(** Invariant of the [while] loop, apart from the closure of processed
    pixels under white neighbours. *)
Record core_inv (im0 : Image) (st : State) : Prop := {
  ci_size : size (px st) = size im0;
  ci_px_dims : grid_dims (width im0) (height im0) (rows (px st));
  ci_vis_dims : grid_dims (width im0) (height im0) (visited st);
  ci_q : ∀ c, c ∈ q st → inb (width im0) (height im0) c ∧ cell (visited st) c = Some true;
  ci_sound : ∀ c, inb (width im0) (height im0) c → cell (visited st) c = Some true →
             border_connected im0 c;
  ci_unvis : ∀ c, inb (width im0) (height im0) c → cell (visited st) c = Some false →
             cell (rows (px st)) c = cell (rows im0) c;
  ci_done : ∀ c, inb (width im0) (height im0) c → cell (visited st) c = Some true →
            cell (rows (px st)) c = transparent <$> cell (rows im0) c ∨
            (c ∈ q st ∧ cell (rows (px st)) c = cell (rows im0) c);
  ci_seeds : ∀ c, inb (width im0) (height im0) c → on_border (width im0) (height im0) c → white_at im0 c →
             cell (visited st) c = Some true
}.

(** Every processed pixel has all its white neighbours visited, except
    for the neighbours [todo] of the pixel [cur] being processed. *)
Definition closed_except (im0 : Image) (cur : coord) (todo : list coord) (st : State) : Prop :=
  ∀ c n, inb (width im0) (height im0) c → cell (visited st) c = Some true → c ∉ q st →
         n ∈ neighbours c → white_at im0 n →
         cell (visited st) n = Some true ∨ (c = cur ∧ n ∈ todo).

(** The border coordinates in the order the two seeding loops test them. *)
Definition seed_coords (w0 h0 : Z) : list coord :=
  (range w0 ≫= λ x, [(x, 0); (x, h0 - 1)]) ++
  (range h0 ≫= λ y, [(0, y); (w0 - 1, y)]).

(** Invariant of the seeding loops once the coordinates [tested] have been
    tested. *)
Definition seed_inv (im0 : Image) (tested : list coord)
    (s : list (list bool) * list coord) : Prop :=
  grid_dims (width im0) (height im0) s.1 ∧
  (∀ c, c ∈ s.2 → inb (width im0) (height im0) c ∧ cell s.1 c = Some true) ∧
  (∀ c, inb (width im0) (height im0) c → cell s.1 c = Some true →
        c ∈ s.2 ∧ white_at im0 c ∧ on_border (width im0) (height im0) c) ∧
  (∀ c, c ∈ tested → white_at im0 c → cell s.1 c = Some true).

(** ** Python numbers *)

#[local] Set Warnings "-inexact-float".

(** [float(z)]: the binary64 value nearest to the integer [z]. *)
Definition float_of_int (z : Z) : float :=
  SF2Prim (binary_normalize prec emax z 0 false).

(** [int(v)] on a float: truncation toward zero; [None] stands for the
    [OverflowError] or [ValueError] raised on an infinity or a NaN. *)
Definition py_int (v : float) : option Z :=
  match Prim2SF v with
  | S754_zero _ => Some 0
  | S754_finite s m e => Some ((if s then -1 else 1) * Z.shiftl (Z.pos m) e)
  | _ => None
  end.

(** [a / b] on integers below 2^53, which image dimensions are; [None] is
    [ZeroDivisionError]. *)
Definition true_div (a b : Z) : option float :=
  if b =? 0 then None else Some (float_of_int a / float_of_int b)%float.

(** [min(x, y)] on floats: Python keeps [x] unless [y < x]. *)
Definition py_min (x y : float) : float := if (y <? x)%float then y else x.

(** ** Module constants *)

Definition ICON_DIR : string :=
  "/Users/starkers/Projects/Zeroa/LASKO/LASKO/Assets.xcassets/AppIcon.appiconset".
Definition GLYPH_PATH : string := ICON_DIR +:+ "/" +:+ "Lasko-Icon-FULL.svg.png".
Definition BASE_OUT : string := ICON_DIR +:+ "/" +:+ "ios-marketing-1024.png".

Definition W : Z := 1024.
Definition H : Z := 1024.
Definition BASE_COLOR : Pixel := RGBA 239 170 58 255.

(** ** [build_sandstone_background] *)

(** A single-band ("L") image: one byte per pixel. *)
Record Band := mkBand { bsize : Z * Z; brows : list (list Z) }.

Definition wf_band (b : Band) : Prop :=
  0 ≤ (bsize b).1 ∧ 0 ≤ (bsize b).2 ∧
  grid_dims (bsize b).1 (bsize b).2 (brows b) ∧
  Forall (Forall (λ p, 0 ≤ p < 256)) (brows b).

(** [Image.new("RGBA", size, color)] *)
Definition image_new (sz : Z * Z) (color : Pixel) : Image :=
  mkImage sz (replicate (Z.to_nat sz.2) (replicate (Z.to_nat sz.1) color)).

(** [band.point(f)]: Pillow tabulates [f] on [range(256)], so an exception
    of [f] surfaces there, and then maps every byte through the table. *)
Definition band_point (f : Z → option Z) (b : Band) : option Band :=
  lut ← mapM f (range 256);
  rows' ← mapM (mapM (λ p, if in_range 256 p then lut !! Z.to_nat p else None))
                (brows b);
  Some (mkBand (bsize b) rows').

(** [ImageOps.invert] on an "L" image. *)
Definition invert (b : Band) : option Band := band_point (λ p, Some (255 - p)) b.

(** Pillow's 8-bit blend of one channel: [in1] where the mask is 0, [in2]
    where it is 255, with its rounding division by 255. *)
Definition div255 (a : Z) : Z := let t := a + 128 in ((t ≫ 8) + t) ≫ 8.
Definition blend (m in1 in2 : Z) : Z := div255 (in1 * (255 - m) + in2 * m).

Definition blend_pixel (m : Z) (under over : Pixel) : Pixel :=
  RGBA (blend m (red under) (red over)) (blend m (green under) (green over))
       (blend m (blue under) (blue over)) (blend m (alpha under) (alpha over)).

(** [base] with its leading elements combined with those of [top]; what
    lies beyond the end of [top] is kept, what lies beyond the end of
    [base] is dropped. *)
Definition overlay {A B} (f : A → B → A) (base : list A) (top : list B) : list A :=
  zip_with f base top ++ drop (length top) base.

(** [Image.composite(image1, image2, mask)]: a copy of [image2] on which
    [image1] is pasted at the origin through [mask]. Pillow raises
    [ValueError] (here [None]) when [mask] and [image1] differ in size, and
    clips the pasted region to [image2]. *)
Definition composite (image1 image2 : Image) (mask : Band) : option Image :=
  if decide (bsize mask = size image1) then
    Some (mkImage (size image2)
            (overlay
               (λ row2 mr,
                  overlay (λ p2 mp, blend_pixel mp.1 p2 mp.2) row2 (zip mr.1 mr.2))
               (rows image2) (zip (brows mask) (rows image1))))
  else None.

(** The nested [clamp]. *)
Definition clamp (v : float) : option Z :=
  i ← py_int v; Some (Z.max 0 (Z.min 255 i)).

Definition dark_tint : option Pixel :=
  r ← clamp (float_of_int 239 * 0.85)%float;
  g ← clamp (float_of_int 170 * 0.85)%float;
  b ← clamp (float_of_int 58 * 0.85)%float;
  Some (RGBA r g b 255).

Definition light_tint : option Pixel :=
  r ← clamp (float_of_int 239 * 1.10)%float;
  g ← clamp (float_of_int 170 * 1.10)%float;
  b ← clamp (float_of_int 58 * 1.10)%float;
  Some (RGBA r g b 255).

(** [noise] is the blurred grey noise field of line 15, which comes from
    Pillow's random generator. *)
Definition build_sandstone_background (noise : Band) : option Image :=
  let bg := image_new (W, H) BASE_COLOR in
  dark ← dark_tint;
  light ← light_tint;
  mask1 ← band_point (λ p, py_int (float_of_int p * 0.30)%float) noise;
  tex ← composite (image_new (W, H) dark) bg mask1;
  inv ← invert noise;
  mask2 ← band_point (λ p, py_int (float_of_int p * 0.15)%float) inv;
  composite (image_new (W, H) light) tex mask2.

(** ** Trim and scale (lines 68-73) *)

(** The size passed to [glyph.resize] for a cropped glyph of size
    [(gw, gh)]. *)
Definition scaled_size (gw gh : Z) : option (Z * Z) :=
  pad ← py_int (float_of_int W * 0.06)%float;
  let max_w := W - 2 * pad in
  let max_h := H - 2 * pad in
  sw ← true_div max_w gw;
  sh ← true_div max_h gh;
  let s := py_min sw sh in
  nw ← py_int (float_of_int gw * s)%float;
  nh ← py_int (float_of_int gh * s)%float;
  Some (Z.max 1 nw, Z.max 1 nh).

(** *** Tabulation used to bound [scaled_size] on glyphs that fit *)

(** The factor [max_w / k] once [pad] is known to be 61. *)
Definition scale_of (k : Z) : float := (float_of_int 902 / float_of_int k)%float.

(** For each dimension [k] from 1 to 902: [float(k)] and [902 / k]. *)
Definition scale_table : list (float * float) :=
  (λ k, (float_of_int k, scale_of k)) <$> seqZ 1 902.

Definition fits_within (fg s : float) : bool :=
  match py_int (fg * s)%float with Some n => n <=? 902 | None => false end.

Definition fits_exactly (fg s : float) : bool :=
  match py_int (fg * s)%float with
  | Some n => (901 <=? n) && (n <=? 902)
  | None => false
  end.

(** [a] is the entry of a dimension to be scaled, [b] the entry of the
    dimension whose factor [min] may select. *)
Definition check_pair (a b : float * float) : bool :=
  if (a.2 <? b.2)%float && negb (b.2 <? a.2)%float then true
  else fits_within a.1 b.2.

Definition check_table (t : list (float * float)) : bool :=
  forallb (λ a, fits_exactly a.1 a.2 && forallb (check_pair a) t) t.

(** Every pixel of the image has alpha 255. *)
Definition opaque (im : Image) : Prop :=
  Forall (Forall (λ p, alpha p = 255)) (rows im).

(** ** [compose] *)

(** The Pillow operations [compose] calls besides those modelled above.
    [effect_noise] is the noise field after [convert("L")] and the blur;
    [open_rgba] decodes the bytes of a file ([None] when Pillow rejects
    them); [getbbox] is applied to the alpha band of its argument. *)
Record Pillow := mkPillow {
  effect_noise : Band;
  open_rgba : string → option Image;
  getbbox : Image → option (Z * Z * Z * Z);
  crop : Image → Z * Z * Z * Z → Image;
  resize : Image → Z * Z → Image;
  paste : Image → Image → Z * Z → Image;
  save_png : Image → string
}.

Inductive exception :=
| ExcFileNotFound (msg : string)
| ExcIndexError
| ExcArithmetic
| ExcOther.

(** The image-processing stages, logged in the order they are entered. *)
Inductive stage :=
| BuildBackground | OpenGlyph | RemoveWhite | TrimScale | Paste | Save.

(** What the process can observe and change: the regular files by path,
    the lines printed so far, and the ghost log of stages. *)
Record World := mkWorld {
  files : gmap string string;
  stdout : list string;
  stages : list stage
}.

(** Computations that read and write the world and may raise. *)
Definition M (A : Type) : Type := World → (exception + A) * World.

#[global] Instance M_ret : MRet M := λ A a w, (inr a, w).

#[global] Instance M_bind : MBind M := λ A B k m w,
  match m w with
  | (inl e, w') => (inl e, w')
  | (inr a, w') => k a w'
  end.

Definition raise {A} (e : exception) : M A := λ w, (inl e, w).

Definition lift {A} (e : exception) (o : option A) : M A :=
  match o with Some a => mret a | None => raise e end.

Definition enter (s : stage) : M unit :=
  λ w, (inr (), mkWorld (files w) (stdout w) (stages w ++ [s])).

(** [os.path.isfile(path)] *)
Definition isfile (path : string) : M bool :=
  λ w, (inr (bool_decide (is_Some (files w !! path))), w).

(** [Image.open(path).convert("RGBA")] *)
Definition image_open (pil : Pillow) (path : string) : M Image :=
  λ w, match files w !! path with
       | None => (inl (ExcFileNotFound path), w)
       | Some bytes =>
         match open_rgba pil bytes with
         | Some im => (inr im, w)
         | None => (inl ExcOther, w)
         end
       end.

(** [image.save(path)], taken to succeed: the [OSError] of an output that
    cannot be written is outside this model, so nothing proved here says
    what happens when the save itself fails. *)
Definition image_save (pil : Pillow) (im : Image) (path : string) : M unit :=
  λ w, (inr (), mkWorld (<[path := save_png pil im]> (files w)) (stdout w) (stages w)).

(** [print(a, b)], taken to succeed likewise. *)
Definition print2 (a b : string) : M unit :=
  λ w, (inr (), mkWorld (files w) (stdout w ++ [a +:+ " " +:+ b]) (stages w)).

(** The exit of [remove_outer_white_only] as an exception or a value;
    [OutOfFuel] does not occur ([remove_outer_white_only_terminates]). *)
Definition remove_white (glyph : Image) : M Image :=
  match remove_outer_white_only glyph with
  | (Returned, glyph') => mret glyph'
  | (IndexError, _) => raise ExcIndexError
  | (OutOfFuel, _) => raise ExcOther
  end.

Definition compose (pil : Pillow) : M unit :=
  present ← isfile GLYPH_PATH;
  if negb present then
    raise (ExcFileNotFound ("Glyph not found: " +:+ GLYPH_PATH))
  else
    enter BuildBackground;;
    canvas ← lift ExcOther (build_sandstone_background (effect_noise pil));
    enter OpenGlyph;;
    glyph ← image_open pil GLYPH_PATH;
    enter RemoveWhite;;
    glyph ← remove_white glyph;
    enter TrimScale;;
    let glyph :=
      match getbbox pil glyph with
      | Some bbox => crop pil glyph bbox
      | None => glyph
      end in
    new_size ← lift ExcArithmetic (scaled_size (size glyph).1 (size glyph).2);
    let glyph := resize pil glyph new_size in
    let x := (W - (size glyph).1) `div` 2 in
    let y := (H - (size glyph).2) `div` 2 in
    enter Paste;;
    let out := paste pil canvas glyph (x, y) in
    enter Save;;
    image_save pil out BASE_OUT;;
    print2 "WROTE_BASE" BASE_OUT.

(** ** Sample images *)

Definition W_ : Pixel := RGBA 255 255 255 255.
Definition K_ : Pixel := RGBA 0 0 0 255.

Definition ring3 : Image :=
  mkImage (3, 3) [[W_; W_; W_]; [W_; K_; W_]; [W_; W_; W_]].

Definition enclosed5 : Image :=
  mkImage (5, 5) [[W_; W_; W_; W_; W_];
                  [W_; K_; K_; K_; W_];
                  [W_; K_; W_; K_; W_];
                  [W_; K_; K_; K_; W_];
                  [W_; W_; W_; W_; W_]].

Definition T_ : Pixel := RGBA 255 255 255 0.

Definition black2 : Image := mkImage (2, 2) [[K_; K_]; [K_; K_]].

Definition white2 : Image := mkImage (2, 2) [[W_; W_]; [W_; W_]].

(** A uniform mid-grey noise field of the canvas size. *)
Definition flat_noise : Band :=
  mkBand (W, H) (replicate (Z.to_nat H) (replicate (Z.to_nat W) 128)).




(** ** More sample inputs *)

Definition strip03 : Image := mkImage (0, 3) [[]; []; []].

(** A white channel running from the left border to the centre of a
    black image, and a transparent white pixel on the border. *)
Definition inlet3 : Image :=
  mkImage (3, 3) [[K_; K_; K_]; [W_; W_; K_]; [T_; K_; K_]].

(** ** The colour of one background pixel *)

(** What lines 16-21 make of one byte [p] of the noise field: the base
    colour blended toward the dark tint through [int(p * 0.30)], then
    toward the light tint through [int((255 - p) * 0.15)]. *)
Definition texel (p : Z) : option Pixel :=
  dark ← dark_tint;
  light ← light_tint;
  m1 ← py_int (float_of_int p * 0.30)%float;
  m2 ← py_int (float_of_int (255 - p) * 0.15)%float;
  Some (blend_pixel m2 (blend_pixel m1 BASE_COLOR dark) light).

(** A noise field whose rows run through the byte values 0, 1, ..., 255
    four times. *)
Definition ramp_noise : Band :=
  mkBand (W, H) (replicate (Z.to_nat H) ((λ x, x `mod` 256) <$> seqZ 0 W)).

(** [a] is channel by channel no lighter than [b]. *)
Definition no_lighter (a b : Pixel) : Prop :=
  red a ≤ red b ∧ green a ≤ green b ∧ blue a ≤ blue b.

Definition no_lighterb (a b : Pixel) : bool :=
  (red a <=? red b) && (green a <=? green b) && (blue a <=? blue b).

(** The colour falls, or stays, from each noise byte to the next. *)
Definition texel_steps_down : bool :=
  forallb (λ p, match texel p, texel (p + 1) with
                | Some a, Some b => no_lighterb b a
                | _, _ => false
                end) (seqZ 0 255).

(** The noise field at its highest everywhere. *)
Definition high_noise : Band :=
  mkBand (W, H) (replicate (Z.to_nat H) (replicate (Z.to_nat W) 255)).

(** The weight, out of 255, with which line 21 pastes the light tint on a
    pixel whose noise byte is [p]: the noise is inverted, then scaled by
    0.15. *)
Definition light_weight (p : Z) : option Z :=
  py_int (float_of_int (255 - p) * 0.15)%float.

(** The weight falls, or stays, from each noise byte to the next. *)
Definition light_weight_steps_down : bool :=
  forallb (λ p, match light_weight p, light_weight (p + 1) with
                | Some a, Some b => b <=? a
                | _, _ => false
                end) (seqZ 0 255).

(** * Proofs *)

Section grid_facts.
Context {A : Type}.
Implicit Types (g : list (list A)) (c : coord).

Lemma wrap_nonneg n i : 0 ≤ i → wrap n i = i.
Proof. intros. unfold wrap. destruct (Z.ltb_spec i 0); lia. Qed.

Lemma in_range_true n i : 0 ≤ i < n → in_range n i = true.
Proof. intros. unfold in_range. apply andb_true_intro. split; [apply Z.leb_le|apply Z.ltb_lt]; lia. Qed.

Lemma in_range_spec n i : in_range n i = true ↔ 0 ≤ i < n.
Proof. unfold in_range. rewrite andb_true_iff, Z.leb_le, Z.ltb_lt. lia. Qed.

Lemma grid_dims_row w h g i r :
  grid_dims w h g → g !! i = Some r → length r = Z.to_nat w.
Proof.
  intros [_ Hall] Hr. rewrite Forall_forall in Hall.
  apply Hall. eapply list_elem_of_lookup_2; eauto.
Qed.

Lemma cell_is_Some w h g c : grid_dims w h g → inb w h c → is_Some (cell g c).
Proof.
  intros Hd [Hx Hy]. unfold cell.
  destruct (lookup_lt_is_Some_2 g (Z.to_nat c.2)) as [r Hr]; [destruct Hd; lia|].
  rewrite Hr. simpl. apply lookup_lt_is_Some_2.
  rewrite (grid_dims_row _ _ _ _ _ Hd Hr). lia.
Qed.

Lemma cell_upd_dims w h g c v : grid_dims w h g → grid_dims w h (cell_upd g c v).
Proof.
  intros Hd. unfold cell_upd. destruct (g !! Z.to_nat c.2) as [r|] eqn:Hr; [|done].
  destruct Hd as [Hl Hall]. split; [by rewrite length_insert|].
  apply Forall_insert; [done|]. rewrite length_insert.
  eapply grid_dims_row; [split|]; eauto.
Qed.

Lemma cell_upd_eq g c v : is_Some (cell g c) → cell (cell_upd g c v) c = Some v.
Proof.
  unfold cell, cell_upd. intros [a Ha].
  destruct (g !! Z.to_nat c.2) as [r|] eqn:Hr; [|done]. simpl in Ha.
  rewrite list_lookup_insert_eq by (eapply lookup_lt_Some; eauto). simpl.
  apply list_lookup_insert_eq. eapply lookup_lt_Some; eauto.
Qed.

Lemma cell_upd_ne g c c' v :
  0 ≤ c.1 → 0 ≤ c.2 → 0 ≤ c'.1 → 0 ≤ c'.2 → c ≠ c' →
  cell (cell_upd g c v) c' = cell g c'.
Proof.
  intros ???? Hne. unfold cell, cell_upd.
  destruct (g !! Z.to_nat c.2) as [r|] eqn:Hr; [|done].
  destruct (decide (Z.to_nat c.2 = Z.to_nat c'.2)) as [Hy|Hy].
  - rewrite <- Hy, Hr. rewrite list_lookup_insert_eq by (eapply lookup_lt_Some; eauto).
    simpl. apply list_lookup_insert_ne. intros Hx. apply Hne.
    destruct c, c'; simpl in *. f_equal; lia.
  - by rewrite list_lookup_insert_ne.
Qed.

Lemma grid_ext w h g1 g2 :
  grid_dims w h g1 → grid_dims w h g2 →
  (∀ c, inb w h c → cell g1 c = cell g2 c) → g1 = g2.
Proof.
  intros Hd1 Hd2 Hc. apply list_eq. intros i.
  destruct (decide (i < Z.to_nat h)%nat) as [Hi|Hi].
  - destruct (lookup_lt_is_Some_2 g1 i) as [r1 Hr1]; [destruct Hd1; lia|].
    destruct (lookup_lt_is_Some_2 g2 i) as [r2 Hr2]; [destruct Hd2; lia|].
    rewrite Hr1, Hr2. f_equal. apply list_eq. intros j.
    destruct (decide (j < Z.to_nat w)%nat) as [Hj|Hj].
    + specialize (Hc (Z.of_nat j, Z.of_nat i)). unfold cell in Hc. simpl in Hc.
      rewrite !Nat2Z.id, Hr1, Hr2 in Hc. simpl in Hc. apply Hc. split; simpl; lia.
    + rewrite !lookup_ge_None_2; [done| |].
      * rewrite (grid_dims_row _ _ _ _ _ Hd2 Hr2). lia.
      * rewrite (grid_dims_row _ _ _ _ _ Hd1 Hr1). lia.
  - rewrite !lookup_ge_None_2; [done| |]; [destruct Hd2|destruct Hd1]; lia.
Qed.

Lemma py_getitem_nonneg (l : list A) i :
  0 ≤ i < Z.of_nat (length l) → py_getitem l i = l !! Z.to_nat i.
Proof.
  intros. unfold py_getitem. rewrite wrap_nonneg by lia. by rewrite in_range_true.
Qed.

Lemma py_setitem_nonneg (l : list A) i v :
  0 ≤ i < Z.of_nat (length l) → py_setitem l i v = Some (<[Z.to_nat i := v]> l).
Proof.
  intros. unfold py_setitem. rewrite wrap_nonneg by lia. by rewrite in_range_true.
Qed.
End grid_facts.

Lemma px_get_inb im c : inb (width im) (height im) c → px_get im c = cell (rows im) c.
Proof.
  intros [Hx Hy]. unfold px_get. rewrite !wrap_nonneg by lia.
  by rewrite !in_range_true.
Qed.

Lemma px_set_inb im c p :
  inb (width im) (height im) c → is_Some (cell (rows im) c) →
  px_set im c p = Some (mkImage (size im) (cell_upd (rows im) c p)).
Proof.
  intros [Hx Hy] [a Ha]. unfold px_set, cell_upd, cell in *.
  rewrite !wrap_nonneg by lia. rewrite !in_range_true by done. simpl.
  by destruct (rows im !! Z.to_nat c.2).
Qed.

Lemma visited_get_inb w h (g : list (list bool)) c :
  grid_dims w h g → inb w h c → visited_get g c = cell g c.
Proof.
  intros Hd [Hx Hy]. unfold visited_get, cell.
  rewrite py_getitem_nonneg by (destruct Hd; lia).
  destruct (g !! Z.to_nat c.2) as [r|] eqn:Hr; [|done]. simpl.
  apply py_getitem_nonneg. rewrite (grid_dims_row _ _ _ _ _ Hd Hr). lia.
Qed.

Lemma visited_mark_inb w h (g : list (list bool)) c :
  grid_dims w h g → inb w h c → visited_mark g c = Some (cell_upd g c true).
Proof.
  intros Hd [Hx Hy]. unfold visited_mark, cell_upd.
  rewrite py_getitem_nonneg by (destruct Hd; lia).
  destruct (lookup_lt_is_Some_2 g (Z.to_nat c.2)) as [r Hr]; [destruct Hd; lia|].
  rewrite Hr. simpl.
  rewrite py_setitem_nonneg by (rewrite (grid_dims_row _ _ _ _ _ Hd Hr); lia). simpl.
  apply py_setitem_nonneg. destruct Hd; lia.
Qed.

(** ** Small runs *)

Example enclosed5_run :
  remove_outer_white_only enclosed5 =
  (Returned, mkImage (5, 5) [[T_; T_; T_; T_; T_];
                             [T_; K_; K_; K_; T_];
                             [T_; K_; W_; K_; T_];
                             [T_; K_; K_; K_; T_];
                             [T_; T_; T_; T_; T_]]).
Proof. reflexivity. Qed.

Example empty_run : remove_outer_white_only (mkImage (0, 0) []) = (Returned, mkImage (0, 0) []).
Proof. reflexivity. Qed.

Example degenerate_run :
  remove_outer_white_only (mkImage (0, 2) [[]; []]) = (IndexError, mkImage (0, 2) [[]; []]).
Proof. reflexivity. Qed.

(** ** Termination of the flood fill *)

Lemma for_each_inv {A S} (P : S → Prop) (body : A → S → option S) l s s' :
  (∀ a s1 s2, a ∈ l → body a s1 = Some s2 → P s1 → P s2) →
  for_each l body s = Some s' → P s → P s'.
Proof.
  revert s. induction l as [|a l IH]; simpl; intros s Hb Hrun HP.
  - by simplify_eq.
  - destruct (body a s) as [s1|] eqn:Hs1; [|done]. simpl in Hrun.
    apply (IH s1); [|done|].
    + intros a' t1 t2 Ha'. apply Hb. by right.
    + eapply Hb; [left|done..].
Qed.

Lemma py_getitem_Some {A} (l : list A) i a :
  py_getitem l i = Some a → l !! Z.to_nat (wrap (Z.of_nat (length l)) i) = Some a.
Proof. unfold py_getitem. by case_match. Qed.

Lemma py_setitem_Some {A} (l : list A) i v l' :
  py_setitem l i v = Some l' → l' = <[Z.to_nat (wrap (Z.of_nat (length l)) i) := v]> l.
Proof. unfold py_setitem. case_match; congruence. Qed.

Lemma nfalse_insert (l : list bool) i :
  l !! i = Some false → S (nfalse (<[i:=true]> l)) = nfalse l.
Proof.
  revert i. induction l as [|b l IH]; intros [|i]; simpl; try done.
  - by intros [= ->].
  - intros Hi. rewrite <- (IH i Hi). lia.
Qed.

Lemma unvisited_insert (g : list (list bool)) i r r' :
  g !! i = Some r →
  (unvisited (<[i:=r']> g) + nfalse r = unvisited g + nfalse r')%nat.
Proof.
  revert i. induction g as [|r0 g IH]; intros [|i]; simpl; try done.
  - intros [= ->]. lia.
  - intros Hi. specialize (IH i Hi). lia.
Qed.

Lemma visited_mark_unvisited g c g' :
  visited_get g c = Some false → visited_mark g c = Some g' →
  S (unvisited g') = unvisited g.
Proof.
  unfold visited_get, visited_mark. intros Hget Hmark.
  destruct (py_getitem g c.2) as [r|] eqn:Hr; [|done]. simpl in *.
  destruct (py_setitem r c.1 true) as [r'|] eqn:Hr'; [|done]. simpl in *.
  apply py_getitem_Some in Hr, Hget.
  apply py_setitem_Some in Hr', Hmark. subst g' r'.
  pose proof (unvisited_insert g _ r (<[Z.to_nat (wrap (Z.of_nat (length r)) c.1):=true]> r) Hr).
  pose proof (nfalse_insert r _ Hget). lia.
Qed.

Lemma visit_measure w0 h0 n st st' :
  visit w0 h0 n st = Some st' → measure st' = measure st.
Proof.
  unfold visit. intros H.
  destruct (in_range w0 n.1 && in_range h0 n.2); [|by simplify_eq].
  destruct (visited_get (visited st) n) as [[|]|] eqn:Hv; simpl in H; [by simplify_eq| |done].
  destruct (is_white (px st) n) as [[|]|]; simpl in H; [|by simplify_eq|done].
  destruct (visited_mark (visited st) n) as [v'|] eqn:Hm; simpl in H; [|done].
  simplify_eq. unfold measure. simpl. rewrite length_app. simpl.
  pose proof (visited_mark_unvisited _ _ _ Hv Hm). lia.
Qed.

Lemma process_measure w0 h0 c st st' :
  process w0 h0 c st = Some st' → measure st' = measure st.
Proof.
  unfold process. intros H.
  destruct (px_get (px st) c) as [p|]; cbn [mbind option_bind] in H; [|done].
  destruct (px_set (px st) c _) as [px'|]; cbn [mbind option_bind] in H; [|done].
  eapply (for_each_inv (λ s, measure s = measure st)) in H; [done| |done].
  intros a s1 s2 _ Hv <-. by eapply visit_measure.
Qed.

Lemma bfs_fuel_enough fuel w0 h0 st :
  (measure st ≤ fuel)%nat → (bfs fuel w0 h0 st).1 ≠ OutOfFuel.
Proof.
  revert st. induction fuel as [|fuel IH]; intros st Hm; simpl.
  - destruct (q st) as [|c rest] eqn:Hq; [done|].
    unfold measure in Hm. rewrite Hq in Hm. simpl in Hm. lia.
  - destruct (q st) as [|c rest] eqn:Hq; [done|].
    destruct (process _ _ _ _) as [st'|] eqn:Hp; [|done].
    apply IH. apply process_measure in Hp. rewrite Hp.
    unfold measure in *. rewrite Hq in Hm. simpl in *. lia.
Qed.

(** The call never runs out of fuel: the [while] loop always exits. *)
Lemma remove_outer_white_only_terminates glyph :
  (remove_outer_white_only glyph).1 ≠ OutOfFuel.
Proof.
  unfold remove_outer_white_only, remove_outer_white_only_run. simpl.
  destruct (seed_borders glyph) as [[v q0]|]; [|done].
  apply bfs_fuel_enough. unfold measure. simpl. lia.
Qed.

(** ** The flood-fill invariant *)

Lemma neighbours_sym c n : n ∈ neighbours c → c ∈ neighbours n.
Proof.
  unfold neighbours. rewrite !elem_of_cons, !elem_of_nil.
  destruct c as [x y], n as [nx ny]; simpl.
  intros [H|[H|[H|[H|[]]]]]; simplify_eq.
  - right; left. f_equal; lia.
  - left. f_equal; lia.
  - do 3 right; left. f_equal; lia.
  - do 2 right; left. f_equal; lia.
Qed.

Lemma cell_bool w h (g : list (list bool)) c :
  grid_dims w h g → inb w h c → cell g c = Some true ∨ cell g c = Some false.
Proof.
  intros Hd Hc. destruct (cell_is_Some _ _ _ _ Hd Hc) as [[|] ->]; eauto.
Qed.

Lemma cell_upd_mono w h (g : list (list bool)) n c :
  grid_dims w h g → inb w h n → inb w h c →
  cell g c = Some true → cell (cell_upd g n true) c = Some true.
Proof.
  intros Hd Hn Hc Hv. destruct (decide (n = c)) as [->|Hne].
  - apply cell_upd_eq. eauto.
  - rewrite cell_upd_ne; [done|destruct Hn, Hc; lia..|done].
Qed.

Section flood_fill.
Variable im0 : Image.
Local Abbreviation w := (width im0).
Local Abbreviation h := (height im0).
Hypothesis Hwf : wf_image im0.

Lemma is_white_im0 c : inb w h c → is_white im0 c = white_pixel <$> cell (rows im0) c.
Proof. intros Hc. unfold is_white. by rewrite px_get_inb. Qed.

Lemma width_px st : core_inv im0 st → width (px st) = w.
Proof. intros H. unfold width. by rewrite (ci_size _ _ H). Qed.

Lemma height_px st : core_inv im0 st → height (px st) = h.
Proof. intros H. unfold height. by rewrite (ci_size _ _ H). Qed.

Lemma visit_inv cur n todo st :
  core_inv im0 st → inb w h cur → cell (visited st) cur = Some true →
  n ∈ neighbours cur →
  closed_except im0 cur (n :: todo) st →
  ∃ st', visit w h n st = Some st' ∧ core_inv im0 st' ∧
         cell (visited st') cur = Some true ∧ closed_except im0 cur todo st'.
Proof.
  intros Hci Hcur Hvcur Hn Hcl. unfold visit.
  assert (Hdrop : (white_at im0 n → cell (visited st) n = Some true) →
                  closed_except im0 cur todo st).
  { intros Hw c n' Hc Hv Hq Hn' Hwn'.
    destruct (Hcl c n' Hc Hv Hq Hn' Hwn') as [?|[-> Hin]]; [by left|].
    apply elem_of_cons in Hin as [->|?]; [left; by apply Hw|by right]. }
  destruct (in_range w n.1 && in_range h n.2) eqn:Hr.
  2:{ exists st. split_and!; try done. apply Hdrop. intros [[Hx Hy] _].
      rewrite !in_range_true in Hr by done. done. }
  apply andb_true_iff in Hr as [Hx%in_range_spec Hy%in_range_spec].
  assert (Hnb : inb w h n) by done.
  rewrite (visited_get_inb _ _ _ _ (ci_vis_dims _ _ Hci) Hnb).
  destruct (cell_bool _ _ _ _ (ci_vis_dims _ _ Hci) Hnb) as [Hv|Hv]; rewrite Hv; simpl.
  { exists st. split_and!; try done. by apply Hdrop. }
  assert (Hpx : is_white (px st) n = is_white im0 n).
  { unfold is_white. rewrite !px_get_inb; [|done|].
    - by rewrite (ci_unvis _ _ Hci n Hnb Hv).
    - by rewrite (width_px _ Hci), (height_px _ Hci). }
  rewrite Hpx, (is_white_im0 _ Hnb).
  destruct (cell_is_Some _ _ _ _ (proj2 (proj2 Hwf)) Hnb) as [p0 Hp0].
  rewrite Hp0. simpl. destruct (white_pixel p0) eqn:Hwp.
  2:{ exists st. split_and!; try done. apply Hdrop. intros [_ Hw].
      rewrite (is_white_im0 _ Hnb), Hp0 in Hw. simpl in Hw. congruence. }
  rewrite (visited_mark_inb _ _ _ _ (ci_vis_dims _ _ Hci) Hnb). simpl.
  eexists. split; [done|].
  assert (Hwn : white_at im0 n).
  { split; [done|]. rewrite (is_white_im0 _ Hnb), Hp0. simpl. by rewrite Hwp. }
  assert (Hnew : cell (cell_upd (visited st) n true) n = Some true).
  { apply cell_upd_eq. eauto. }
  assert (Hold : ∀ c, inb w h c → c ≠ n →
            cell (cell_upd (visited st) n true) c = cell (visited st) c).
  { intros c Hc Hne. apply cell_upd_ne; [destruct Hnb, Hc; lia..|done]. }
  split_and!.
  - constructor; simpl.
    + apply (ci_size _ _ Hci).
    + apply (ci_px_dims _ _ Hci).
    + apply cell_upd_dims, (ci_vis_dims _ _ Hci).
    + intros c [Hc| ->%list_elem_of_singleton]%elem_of_app; [|done].
      destruct (ci_q _ _ Hci c Hc) as [Hcb Hcv]. split; [done|].
      by eapply cell_upd_mono; [apply (ci_vis_dims _ _ Hci)|..].
    + intros c Hc Hcv. destruct (decide (c = n)) as [->|Hne].
      * eapply bc_step; [done|by apply neighbours_sym|].
        by apply (ci_sound _ _ Hci).
      * rewrite Hold in Hcv by done. by apply (ci_sound _ _ Hci).
    + intros c Hc Hcv. destruct (decide (c = n)) as [->|Hne]; [congruence|].
      rewrite Hold in Hcv by done. by apply (ci_unvis _ _ Hci).
    + intros c Hc Hcv. destruct (decide (c = n)) as [->|Hne].
      * right. split; [apply elem_of_app; right; by apply list_elem_of_singleton|].
        by apply (ci_unvis _ _ Hci).
      * rewrite Hold in Hcv by done.
        destruct (ci_done _ _ Hci c Hc Hcv) as [?|[??]]; [by left|right].
        split; [apply elem_of_app; by left|done].
    + intros c Hc Hb Hw.
      eapply cell_upd_mono; [apply (ci_vis_dims _ _ Hci)|done..|].
      by apply (ci_seeds _ _ Hci).
  - simpl. by eapply cell_upd_mono; [apply (ci_vis_dims _ _ Hci)|..].
  - intros c n' Hc Hcv Hq Hn' Hwn'. simpl in *.
    assert (c ≠ n) as Hne.
    { intros ->. apply Hq, elem_of_app. right. by apply list_elem_of_singleton. }
    rewrite Hold in Hcv by done.
    assert (c ∉ q st) as Hq' by (intros ?; apply Hq, elem_of_app; by left).
    destruct (Hcl c n' Hc Hcv Hq' Hn' Hwn') as [Hv'|[-> Hin]].
    + left. destruct Hwn' as [Hn'b _].
      by eapply cell_upd_mono; [apply (ci_vis_dims _ _ Hci)|..].
    + apply elem_of_cons in Hin as [->|?]; [by left|by right].
Qed.

Lemma visits_inv cur todo st :
  core_inv im0 st → inb w h cur → cell (visited st) cur = Some true →
  (∀ n, n ∈ todo → n ∈ neighbours cur) →
  closed_except im0 cur todo st →
  ∃ st', for_each todo (visit w h) st = Some st' ∧ core_inv im0 st' ∧
         closed_except im0 cur [] st'.
Proof.
  revert st. induction todo as [|n todo IH]; intros st Hci Hcur Hv Hsub Hcl.
  - by exists st.
  - destruct (visit_inv cur n todo st) as (st1 & Hrun & Hci1 & Hv1 & Hcl1);
      [done..|apply Hsub; by left|done|].
    destruct (IH st1) as (st2 & Hrun2 & ?); [done..| |done|].
    { intros n' ?. apply Hsub. by right. }
    exists st2. split; [|done]. simpl. by rewrite Hrun.
Qed.

Lemma process_inv cur c rest st dq :
  core_inv im0 st → closed_except im0 cur [] st → q st = c :: rest →
  ∃ st', process w h c (mkState (px st) (visited st) rest dq) = Some st' ∧
         core_inv im0 st' ∧ closed_except im0 c [] st'.
Proof.
  intros Hci Hcl Hq.
  destruct (ci_q _ _ Hci c) as [Hc Hvc]; [rewrite Hq; by left|].
  assert (Hc' : inb (width (px st)) (height (px st)) c)
    by (by rewrite (width_px _ Hci), (height_px _ Hci)).
  destruct (cell_is_Some _ _ _ _ (ci_px_dims _ _ Hci) Hc) as [p Hp].
  destruct (cell_is_Some _ _ _ _ (proj2 (proj2 Hwf)) Hc) as [p0 Hp0].
  unfold process. cbn [px visited q dequeued].
  rewrite (px_get_inb _ _ Hc'), Hp. cbn [mbind option_bind].
  rewrite (px_set_inb _ _ _ Hc') by eauto. cbn [mbind option_bind].
  fold (transparent p).
  assert (Hold : ∀ c', inb w h c' → c' ≠ c →
            cell (cell_upd (rows (px st)) c (transparent p)) c' = cell (rows (px st)) c').
  { intros c' Hcb Hne. apply cell_upd_ne; [destruct Hc, Hcb; lia..|done]. }
  apply visits_inv; [|done..|].
  - constructor; cbn [px visited q dequeued rows size].
    + apply (ci_size _ _ Hci).
    + apply cell_upd_dims, (ci_px_dims _ _ Hci).
    + apply (ci_vis_dims _ _ Hci).
    + intros c' Hin. apply (ci_q _ _ Hci). rewrite Hq. by right.
    + apply (ci_sound _ _ Hci).
    + intros c' Hcb Hv. rewrite Hold; [by apply (ci_unvis _ _ Hci)|done|congruence].
    + intros c' Hcb Hv. destruct (decide (c' = c)) as [->|Hne].
      * left. rewrite cell_upd_eq by eauto. rewrite Hp0. simpl. f_equal.
        destruct (ci_done _ _ Hci c Hc Hvc) as [He|[_ He]];
          rewrite Hp, Hp0 in He; simpl in He; by simplify_eq.
      * rewrite Hold by done.
        destruct (ci_done _ _ Hci c' Hcb Hv) as [?|[Hin ?]]; [by left|right].
        split; [|done]. rewrite Hq in Hin. by apply elem_of_cons in Hin as [?|?].
    + apply (ci_seeds _ _ Hci).
  - intros c1 n Hc1 Hv1 Hq1 Hn Hwn. cbn [px visited q dequeued] in *.
    destruct (decide (c1 = c)) as [->|Hne]; [by right|].
    destruct (Hcl c1 n Hc1 Hv1) as [?|[_ []%elem_of_nil]]; [|done..|by left].
    rewrite Hq. by intros [?|?]%elem_of_cons.
Qed.

Lemma closed_except_any cur c st :
  closed_except im0 cur [] st → closed_except im0 c [] st.
Proof.
  intros Hcl c1 n H1 H2 H3 H4 H5.
  destruct (Hcl c1 n H1 H2 H3 H4 H5) as [?|[_ []%elem_of_nil]]. by left.
Qed.

Lemma bfs_inv cur fuel st :
  core_inv im0 st → closed_except im0 cur [] st → (measure st ≤ fuel)%nat →
  ∃ st', bfs fuel w h st = (Returned, st') ∧ core_inv im0 st' ∧
         (∀ c, closed_except im0 c [] st') ∧ q st' = [].
Proof.
  revert cur st. induction fuel as [|fuel IH]; intros cur st Hci Hcl Hm.
  - assert (q st = []) as Hq.
    { unfold measure in Hm. destruct (q st); [done|simpl in Hm; lia]. }
    exists st. simpl. rewrite Hq. split_and!; try done.
    intros c. by eapply closed_except_any.
  - simpl. destruct (q st) as [|c rest] eqn:Hq.
    + exists st. split_and!; try done.
      intros c. by eapply closed_except_any.
    + destruct (process_inv cur c rest st (dequeued st ++ [c]))
        as (st1 & Hrun & Hci1 & Hcl1); [done..|].
      rewrite Hrun. apply (IH c); [done..|].
      apply process_measure in Hrun. rewrite Hrun.
      unfold measure in *. rewrite Hq in Hm. simpl in *. lia.
Qed.

(** At the end of the loop the visited pixels are exactly the
    border-connected ones. *)
Lemma border_connected_inb c : border_connected im0 c → inb w h c.
Proof. by intros [? [? _] _|? ? [? _] _ _]. Qed.

Lemma closed_visited st c :
  core_inv im0 st → (∀ c, closed_except im0 c [] st) → q st = [] →
  border_connected im0 c → cell (visited st) c = Some true.
Proof.
  intros Hci Hcl Hq. induction 1 as [c Hw Hb|c c' Hw Hn Hbc IH].
  - apply (ci_seeds _ _ Hci); [apply Hw|done..].
  - edestruct (Hcl c c' c) as [?|[_ []%elem_of_nil]]; eauto.
    + by apply border_connected_inb.
    + rewrite Hq. apply not_elem_of_nil.
    + by apply neighbours_sym.
Qed.

(** ** The seeding loops *)

Lemma for_each_pair {A B S} (f : B → S → option S) (g1 g2 : A → B) l s :
  for_each l (λ a s, s' ← f (g1 a) s; f (g2 a) s') s =
  for_each (l ≫= λ a, [g1 a; g2 a]) f s.
Proof.
  revert s. induction l as [|a l IH]; intros s; [done|].
  cbn. destruct (f (g1 a) s) as [s1|]; [|done]. cbn.
  destruct (f (g2 a) s1) as [s2|]; [|done]. cbn. apply IH.
Qed.

Lemma for_each_app {A S} (f : A → S → option S) l1 l2 s :
  for_each (l1 ++ l2) f s = for_each l1 f s ≫= for_each l2 f.
Proof.
  revert s. induction l1 as [|a l1 IH]; intros s; [done|].
  cbn. destruct (f a s) as [s1|]; [|done]. cbn. apply IH.
Qed.

Lemma seed_borders_flat im :
  seed_borders im =
  for_each (seed_coords (width im) (height im)) (seed im)
    (replicate (Z.to_nat (height im)) (replicate (Z.to_nat (width im)) false), []).
Proof.
  unfold seed_borders, seed_coords. rewrite for_each_app.
  rewrite (for_each_pair (seed im) (λ x, (x, 0)) (λ x, (x, height im - 1))).
  destruct (for_each _ _ _) as [s|]; [|done]. cbn.
  apply (for_each_pair (seed im) (λ y, (0, y)) (λ y, (width im - 1, y))).
Qed.

Lemma elem_of_seed_coords w0 h0 c :
  c ∈ seed_coords w0 h0 ↔
  (0 ≤ c.1 < w0 ∧ (c.2 = 0 ∨ c.2 = h0 - 1)) ∨
  (0 ≤ c.2 < h0 ∧ (c.1 = 0 ∨ c.1 = w0 - 1)).
Proof.
  unfold seed_coords, range. rewrite elem_of_app, !list_elem_of_bind.
  destruct c as [x y]. simpl. split.
  - intros [(x' & Hin & Hx)|(y' & Hin & Hy)].
    + apply elem_of_seqZ in Hx. left.
      rewrite !elem_of_cons, elem_of_nil in Hin.
      destruct Hin as [?|[?|[]]]; simplify_eq; lia.
    + apply elem_of_seqZ in Hy. right.
      rewrite !elem_of_cons, elem_of_nil in Hin.
      destruct Hin as [?|[?|[]]]; simplify_eq; lia.
  - intros [[Hx Hy]|[Hy Hx]].
    + left. exists x. rewrite elem_of_seqZ, !elem_of_cons.
      split; [|lia]. destruct Hy as [->| ->]; auto.
    + right. exists y. rewrite elem_of_seqZ, !elem_of_cons.
      split; [|lia]. destruct Hx as [->| ->]; auto.
Qed.

Lemma cell_replicate {A} (a : A) w0 h0 c :
  inb w0 h0 c → cell (replicate (Z.to_nat h0) (replicate (Z.to_nat w0) a)) c = Some a.
Proof.
  intros [Hx Hy]. unfold cell.
  rewrite lookup_replicate_2 by lia. simpl. apply lookup_replicate_2. lia.
Qed.

Lemma grid_dims_replicate {A} (a : A) w0 h0 :
  grid_dims w0 h0 (replicate (Z.to_nat h0) (replicate (Z.to_nat w0) a)).
Proof.
  split; [apply length_replicate|]. apply Forall_replicate, length_replicate.
Qed.

Lemma seed_inv_init :
  seed_inv im0 [] (replicate (Z.to_nat h) (replicate (Z.to_nat w) false), []).
Proof.
  split_and!; simpl.
  - apply grid_dims_replicate.
  - by intros c ?%elem_of_nil.
  - intros c Hc. by rewrite cell_replicate.
  - by intros c ?%elem_of_nil.
Qed.

Lemma seed_step c tested s :
  seed_inv im0 tested s → inb w h c → on_border w h c →
  ∃ s', seed im0 c s = Some s' ∧ seed_inv im0 (c :: tested) s'.
Proof.
  intros (Hd & Hq & Hv & Ht) Hc Hb. unfold seed.
  rewrite (is_white_im0 _ Hc).
  destruct (cell_is_Some _ _ _ _ (proj2 (proj2 Hwf)) Hc) as [p0 Hp0].
  rewrite Hp0. simpl. destruct (white_pixel p0) eqn:Hwp.
  - rewrite (visited_mark_inb _ _ _ _ Hd Hc). simpl. eexists. split; [done|].
    assert (Hwc : white_at im0 c).
    { split; [done|]. rewrite (is_white_im0 _ Hc), Hp0. simpl. by rewrite Hwp. }
    assert (Hnew : cell (cell_upd s.1 c true) c = Some true).
    { apply cell_upd_eq. by eapply cell_is_Some. }
    split_and!; simpl.
    + by apply cell_upd_dims.
    + intros c' [Hin| ->%list_elem_of_singleton]%elem_of_app; [|done].
      destruct (Hq c' Hin). split; [done|]. by eapply cell_upd_mono.
    + intros c' Hc' Hv'. destruct (decide (c' = c)) as [->|Hne].
      * split_and!; try done. apply elem_of_app. right. by apply list_elem_of_singleton.
      * rewrite cell_upd_ne in Hv'; [|destruct Hc, Hc'; lia..|done].
        destruct (Hv c' Hc' Hv') as (? & ? & ?). split_and!; try done.
        apply elem_of_app. by left.
    + intros c' [->|Hin]%elem_of_cons Hw'; [done|].
      eapply cell_upd_mono; [done..|apply Hw'|by apply Ht].
  - exists s. split; [done|]. split_and!; try done.
    intros c' [->|Hin]%elem_of_cons Hw'; [|by apply Ht].
    destruct Hw' as [_ Hw']. rewrite (is_white_im0 _ Hc), Hp0 in Hw'.
    simpl in Hw'. congruence.
Qed.

Lemma seeds_run l tested s :
  (∀ c, c ∈ l → inb w h c ∧ on_border w h c) → seed_inv im0 tested s →
  ∃ s', for_each l (seed im0) s = Some s' ∧
        seed_inv im0 (l ++ tested) s'.
Proof.
  revert tested s. induction l as [|c l IH]; intros tested s Hl Hinv.
  - by exists s.
  - destruct (Hl c) as [Hc Hb]; [by left|].
    destruct (seed_step c tested s Hinv Hc Hb) as (s1 & Hrun1 & Hinv1).
    destruct (IH (c :: tested) s1) as (s2 & Hrun2 & (Hd & Hq & Hv & Ht));
      [intros c' ?; apply Hl; by right|done|].
    exists s2. split; [simpl; by rewrite Hrun1|].
    split_and!; try done. intros c' Hin. apply Ht.
    rewrite elem_of_app, elem_of_cons.
    simpl in Hin. rewrite elem_of_cons, elem_of_app in Hin. tauto.
Qed.

Lemma seed_borders_spec :
  0 < w → 0 < h →
  ∃ s, seed_borders im0 = Some s ∧ seed_inv im0 (seed_coords w h) s.
Proof.
  intros Hw Hh. rewrite seed_borders_flat.
  edestruct (seeds_run (seed_coords w h) []) with (2 := seed_inv_init)
    as (s & Hrun & Hinv).
  - intros c Hin%elem_of_seed_coords. unfold inb, on_border. lia.
  - exists s. split; [done|]. by rewrite app_nil_r in Hinv.
Qed.

(** ** The whole call on an image with at least one pixel *)

Lemma run_spec :
  0 < w → 0 < h →
  ∃ st, remove_outer_white_only_run im0 = (Returned, st) ∧
        core_inv im0 st ∧ (∀ c, closed_except im0 c [] st) ∧ q st = [].
Proof.
  intros Hw Hh. destruct (seed_borders_spec Hw Hh) as ([v q0] & Hs & Hd & Hq & Hv & Ht).
  unfold remove_outer_white_only_run. rewrite Hs. simpl in *.
  apply (bfs_inv (0, 0)); [|by intros c n Hc [Hin _]%Hv ?|done].
  constructor; cbn [px visited q dequeued]; try done.
  - apply Hwf.
  - intros c Hc Hcv. destruct (Hv c Hc Hcv) as (_ & ? & ?). by apply bc_border.
  - intros c Hc Hcv. right. by destruct (Hv c Hc Hcv) as (? & _).
  - intros c Hc Hb Hwc. apply Ht; [|done].
    apply elem_of_seed_coords. unfold inb, on_border in *. lia.
Qed.

Lemma final_cells st c :
  core_inv im0 st → (∀ c, closed_except im0 c [] st) → q st = [] → inb w h c →
  (border_connected im0 c ∧
   cell (rows (px st)) c = transparent <$> cell (rows im0) c) ∨
  (¬ border_connected im0 c ∧ cell (rows (px st)) c = cell (rows im0) c).
Proof.
  intros Hci Hcl Hq Hc.
  destruct (cell_bool _ _ _ _ (ci_vis_dims _ _ Hci) Hc) as [Hv|Hv].
  - left. split; [by apply (ci_sound _ _ Hci)|].
    destruct (ci_done _ _ Hci c Hc Hv) as [?|[Hin _]]; [done|].
    rewrite Hq in Hin. by apply elem_of_nil in Hin.
  - right. split; [|by apply (ci_unvis _ _ Hci)].
    intros Hbc. rewrite (closed_visited st c Hci Hcl Hq Hbc) in Hv. done.
Qed.

(** On an image with at least one pixel the call returns, and it has made
    transparent exactly the border-connected pixels. *)
Lemma remove_outer_white_only_proper :
  0 < w → 0 < h →
  ∃ im', remove_outer_white_only im0 = (Returned, im') ∧
         size im' = size im0 ∧ wf_image im' ∧
         ∀ c, inb w h c →
           (border_connected im0 c ∧
            cell (rows im') c = transparent <$> cell (rows im0) c) ∨
           (¬ border_connected im0 c ∧ cell (rows im') c = cell (rows im0) c).
Proof.
  intros Hw Hh. destruct (run_spec Hw Hh) as (st & Hrun & Hci & Hcl & Hq).
  exists (px st). unfold remove_outer_white_only. rewrite Hrun. simpl.
  split_and!; [done|apply (ci_size _ _ Hci)| |].
  - unfold wf_image. rewrite (width_px _ Hci), (height_px _ Hci).
    split_and!; [lia..|apply (ci_px_dims _ _ Hci)].
  - intros c Hc. by apply final_cells.
Qed.

Lemma px_get_degenerate c : w = 0 ∨ h = 0 → px_get im0 c = None.
Proof.
  intros Hz. unfold px_get.
  assert (in_range w (wrap w c.1) && in_range h (wrap h c.2) = false) as ->; [|done].
  apply andb_false_iff. unfold in_range.
  destruct Hz as [-> | ->]; [left|right]; apply andb_false_iff; rewrite Z.leb_gt, Z.ltb_ge; lia.
Qed.

(** On an image without pixels the call touches nothing: it returns at once
    on the 0 by 0 image and raises [IndexError] at the first seeding test
    when exactly one dimension is zero. *)
Lemma remove_outer_white_only_degenerate :
  w = 0 ∨ h = 0 →
  remove_outer_white_only im0 =
  (if (w =? 0) && (h =? 0) then Returned else IndexError, im0).
Proof.
  intros Hz. destruct Hwf as (Hw & Hh & _).
  assert (Hseed : ∀ c s, seed im0 c s = None).
  { intros c s. unfold seed, is_white. by rewrite px_get_degenerate. }
  unfold remove_outer_white_only, remove_outer_white_only_run, seed_borders.
  destruct (decide (w = 0)) as [Hw0|Hw0]; [destruct (decide (h = 0)) as [Hh0|Hh0]|].
  - rewrite Hw0, Hh0. done.
  - rewrite Hw0. cbn [range seqZ for_each]. simpl.
    unfold range. rewrite (seqZ_cons 0 h) by lia. cbn [for_each].
    rewrite Hseed. simpl. rewrite (proj2 (Z.eqb_neq h 0)) by done. done.
  - unfold range. rewrite (seqZ_cons 0 w) by lia. cbn [for_each].
    rewrite Hseed. simpl. rewrite (proj2 (Z.eqb_neq w 0)) by done. done.
Qed.

Lemma border_connected_seed c :
  border_connected im0 c → ∃ c0, white_at im0 c0 ∧ on_border w h c0.
Proof. induction 1; eauto. Qed.

End flood_fill.

Lemma wf_image_cases im :
  wf_image im → (0 < width im ∧ 0 < height im) ∨ (width im = 0 ∨ height im = 0).
Proof. intros (? & ? & _). lia. Qed.

Lemma white_at_cell im c :
  white_at im c ↔
  inb (width im) (height im) c ∧ ∃ p, cell (rows im) c = Some p ∧ white_pixel p = true.
Proof.
  unfold white_at, is_white. split.
  - intros [Hc Hw]. split; [done|]. rewrite px_get_inb in Hw by done.
    destruct (cell (rows im) c) as [p|]; [|done]. simpl in Hw. exists p. split; congruence.
  - intros [Hc (p & Hp & Hw)]. split; [done|]. rewrite px_get_inb, Hp by done.
    simpl. by rewrite Hw.
Qed.

Lemma image_ext im im' :
  wf_image im → wf_image im' → size im' = size im →
  (∀ c, inb (width im) (height im) c → cell (rows im') c = cell (rows im) c) →
  im' = im.
Proof.
  intros (_ & _ & Hd) (_ & _ & Hd') Hs Hc. destruct im as [s r], im' as [s' r'].
  unfold width, height in *. simpl in *. subst s'. f_equal. by eapply grid_ext.
Qed.

(** An image none of whose border pixels is white comes back unchanged. *)
Lemma remove_outer_white_only_no_seed im :
  wf_image im →
  (∀ c, on_border (width im) (height im) c → ¬ white_at im c) →
  (remove_outer_white_only im).2 = im.
Proof.
  intros Hwf Hno. destruct (wf_image_cases im Hwf) as [[Hw Hh]|Hz].
  - destruct (remove_outer_white_only_proper im Hwf Hw Hh) as (im' & -> & Hs & Hwf' & Hc).
    simpl. apply image_ext; try done. intros c Hcb.
    destruct (Hc c Hcb) as [[Hbc _]|[_ ?]]; [|done].
    destruct (border_connected_seed _ _ Hbc) as (c0 & ? & ?). by destruct (Hno c0).
  - by rewrite remove_outer_white_only_degenerate.
Qed.

(** ** Properties of [remove_outer_white_only] *)

Ltac solve_wf :=
  unfold wf_image, grid_dims, width, height; simpl;
  split_and!; try lia; try done; repeat constructor.

Lemma ring3_wf : wf_image ring3.
Proof. solve_wf. Qed.

Lemma enclosed5_wf : wf_image enclosed5.
Proof. solve_wf. Qed.

Lemma black2_wf : wf_image black2.
Proof. solve_wf. Qed.

Lemma enclosed5_centre_not_connected : ¬ border_connected enclosed5 (2, 2).
Proof.
  intros Hbc. inversion Hbc as [c _ Hb|c c' _ Hn Hbc']; subst.
  - unfold on_border, width, height in Hb. simpl in Hb. lia.
  - assert (¬ white_at enclosed5 c') as Hnw.
    { intros [_ Hw]. unfold neighbours in Hn. simpl in Hn.
      rewrite !elem_of_cons, elem_of_nil in Hn.
      destruct Hn as [->|[->|[->|[->|[]]]]]; vm_compute in Hw; done. }
    by inversion Hbc'.
Qed.

(** C1: in every image, a pixel on the border that satisfies the white
    predicate has opacity zero after [remove_outer_white_only]; the call
    returns normally and the pixel keeps its colour channels. *)
Theorem border_white_pixel_erased im c p :
  wf_image im → inb (width im) (height im) c →
  on_border (width im) (height im) c →
  px_get im c = Some p → white_pixel p = true →
  ∃ im', remove_outer_white_only im = (Returned, im') ∧
         px_get im' c = Some (transparent p) ∧ alpha (transparent p) = 0.
Proof.
  intros Hwf Hc Hb Hp Hw.
  destruct (remove_outer_white_only_proper im Hwf) as (im' & Hrun & Hs & _ & Hcells);
    [destruct Hc; lia..|].
  exists im'. split_and!; [done| |done].
  rewrite px_get_inb in Hp by done.
  rewrite px_get_inb by (unfold width, height; by rewrite Hs).
  destruct (Hcells c Hc) as [[_ ->]|[Hn _]]; [by rewrite Hp|].
  destruct Hn. apply bc_border; [|done]. apply white_at_cell. eauto.
Qed.

Lemma border_white_pixel_erased_witness :
  ∃ im', remove_outer_white_only ring3 = (Returned, im') ∧
         px_get im' (0, 0) = Some (transparent W_) ∧ alpha (transparent W_) = 0.
Proof.
  apply (border_white_pixel_erased ring3 (0, 0) W_).
  - apply ring3_wf.
  - unfold inb, width, height; simpl; lia.
  - unfold on_border, width, height; simpl; lia.
  - reflexivity.
  - reflexivity.
Defined.

Lemma border_connected_path im c :
  border_connected im c ↔ ∃ path, white_path_to_border im c path.
Proof.
  split.
  - induction 1 as [c Hw Hb|c c' Hw Hn _ [path IH]].
    + by exists [].
    + by exists (c' :: path).
  - intros [path Hp]. revert c Hp.
    induction path as [|c' rest IH]; intros c [Hw Hp].
    + by apply bc_border.
    + destruct Hp as [Hn Hp]. eapply bc_step; eauto.
Qed.

Lemma enclosed5_centre_no_path path : ¬ white_path_to_border enclosed5 (2, 2) path.
Proof.
  intros Hp. apply enclosed5_centre_not_connected, border_connected_path. eauto.
Qed.

(** C2: a white pixel from which no 4-connected path of white pixels leads
    to the border is left as it was by [remove_outer_white_only], so its
    opacity stays non-zero. (Such a pixel is necessarily interior.) *)
Theorem enclosed_white_pixel_kept im c p :
  wf_image im → inb (width im) (height im) c →
  px_get im c = Some p → white_pixel p = true →
  (∀ path, ¬ white_path_to_border im c path) →
  ∃ im', remove_outer_white_only im = (Returned, im') ∧
         px_get im' c = Some p ∧ alpha p ≠ 0.
Proof.
  intros Hwf Hc Hp Hw Hn.
  destruct (remove_outer_white_only_proper im Hwf) as (im' & Hrun & Hs & _ & Hcells);
    [destruct Hc; lia..|].
  exists im'. split_and!; [done| |].
  - rewrite px_get_inb in Hp by done.
    rewrite px_get_inb by (unfold width, height; by rewrite Hs).
    destruct (Hcells c Hc) as [[Hbc _]|[_ ->]]; [|done].
    apply border_connected_path in Hbc as [path Hpath]. by destruct (Hn path).
  - unfold white_pixel in Hw. rewrite !andb_true_iff, Z.ltb_lt in Hw. lia.
Qed.

Lemma enclosed_white_pixel_kept_witness :
  ∃ im', remove_outer_white_only enclosed5 = (Returned, im') ∧
         px_get im' (2, 2) = Some W_ ∧ alpha W_ ≠ 0.
Proof.
  apply (enclosed_white_pixel_kept enclosed5 (2, 2) W_).
  - apply enclosed5_wf.
  - unfold inb, width, height; simpl; lia.
  - reflexivity.
  - reflexivity.
  - apply enclosed5_centre_no_path.
Defined.

(** C3: on an image in which no pixel satisfies the white predicate,
    [remove_outer_white_only] leaves the pixel data identical to its
    input. *)
Theorem non_white_image_unchanged im :
  wf_image im →
  (∀ c p, inb (width im) (height im) c → px_get im c = Some p →
          white_pixel p = false) →
  (remove_outer_white_only im).2 = im.
Proof.
  intros Hwf Hno. apply remove_outer_white_only_no_seed; [done|].
  intros c _ [Hc (p & Hp & Hw)]%white_at_cell.
  rewrite <- px_get_inb in Hp by done. rewrite (Hno c p Hc Hp) in Hw. done.
Qed.

Lemma non_white_image_unchanged_witness :
  (remove_outer_white_only black2).2 = black2.
Proof.
  apply (non_white_image_unchanged black2).
  - apply black2_wf.
  - intros [x y] p [Hx Hy]. unfold width, height in *. simpl in *.
    assert ((x = 0 ∨ x = 1) ∧ (y = 0 ∨ y = 1)) as [[-> | ->] [-> | ->]] by lia;
      intros [= <-]; reflexivity.
Defined.

(** C4: [remove_outer_white_only] never changes the size of the image nor
    the red, green or blue channel of a pixel; a pixel either keeps its
    value or has only its alpha channel set to zero. *)
Theorem only_alpha_zeroed im c p :
  wf_image im → inb (width im) (height im) c → px_get im c = Some p →
  size (remove_outer_white_only im).2 = size im ∧
  ∃ p', px_get (remove_outer_white_only im).2 c = Some p' ∧
        (p' = p ∨ p' = transparent p) ∧
        red p' = red p ∧ green p' = green p ∧ blue p' = blue p ∧
        (alpha p' = alpha p ∨ alpha p' = 0).
Proof.
  intros Hwf Hc Hp.
  destruct (remove_outer_white_only_proper im Hwf) as (im' & -> & Hs & _ & Hcells);
    [destruct Hc; lia..|].
  simpl. split; [done|].
  rewrite px_get_inb in Hp by done.
  rewrite px_get_inb by (unfold width, height; by rewrite Hs).
  destruct (Hcells c Hc) as [[_ ->]|[_ ->]]; rewrite Hp; simpl.
  - exists (transparent p). simpl. tauto.
  - exists p. tauto.
Qed.

Lemma only_alpha_zeroed_witness :
  size (remove_outer_white_only ring3).2 = size ring3 ∧
  ∃ p', px_get (remove_outer_white_only ring3).2 (1, 0) = Some p' ∧
        (p' = W_ ∨ p' = transparent W_) ∧
        red p' = red W_ ∧ green p' = green W_ ∧ blue p' = blue W_ ∧
        (alpha p' = alpha W_ ∨ alpha p' = 0).
Proof.
  apply (only_alpha_zeroed ring3 (1, 0) W_).
  - apply ring3_wf.
  - unfold inb, width, height; simpl; lia.
  - reflexivity.
Defined.

(** C10: [remove_outer_white_only] is idempotent: a second call ends the
    same way as the first and leaves the same pixel data. *)
Theorem remove_outer_white_only_idempotent im :
  wf_image im →
  remove_outer_white_only (remove_outer_white_only im).2 =
  remove_outer_white_only im.
Proof.
  intros Hwf. destruct (wf_image_cases im Hwf) as [[Hw Hh]|Hz].
  2:{ rewrite (remove_outer_white_only_degenerate im Hwf Hz). simpl.
      apply (remove_outer_white_only_degenerate im Hwf Hz). }
  destruct (remove_outer_white_only_proper im Hwf Hw Hh)
    as (im' & Hrun & Hs & Hwf' & Hcells).
  rewrite Hrun. simpl.
  assert (Hw' : width im' = width im) by (unfold width; by rewrite Hs).
  assert (Hh' : height im' = height im) by (unfold height; by rewrite Hs).
  destruct (remove_outer_white_only_proper im' Hwf') as (im'' & Hrun' & _);
    [lia..|].
  rewrite Hrun'. f_equal.
  change im'' with (Returned, im'').2. rewrite <- Hrun'.
  apply remove_outer_white_only_no_seed; [done|].
  rewrite Hw', Hh'. intros c Hb [Hc (p' & Hp' & Hwp')]%white_at_cell.
  rewrite Hw', Hh' in Hc.
  destruct (Hcells c Hc) as [[_ He]|[Hn He]]; rewrite He in Hp'.
  - destruct (cell (rows im) c) as [p|]; [|done]. simpl in Hp'.
    by simplify_eq.
  - apply Hn, bc_border; [|done]. apply white_at_cell. eauto.
Qed.

Lemma remove_outer_white_only_idempotent_witness :
  remove_outer_white_only (remove_outer_white_only enclosed5).2 =
  remove_outer_white_only enclosed5.
Proof. apply (remove_outer_white_only_idempotent enclosed5), enclosed5_wf. Defined.

(** C5: the loop always exits, but a coordinate can be dequeued more than
    once: on the 2 by 2 all-white image the seeding loops have queued
    every corner twice, and the loop dequeues and processes each
    coordinate twice. *)
Theorem corner_dequeued_twice :
  (∀ glyph, (remove_outer_white_only_run glyph).1 ≠ OutOfFuel) ∧
  (remove_outer_white_only_run white2).1 = Returned ∧
  dequeued (remove_outer_white_only_run white2).2 =
    [(0, 0); (0, 1); (1, 0); (1, 1); (0, 0); (1, 0); (0, 1); (1, 1)] ∧
  ¬ NoDup (dequeued (remove_outer_white_only_run white2).2).
Proof.
  assert (dequeued (remove_outer_white_only_run white2).2 =
          [(0, 0); (0, 1); (1, 0); (1, 1); (0, 0); (1, 0); (0, 1); (1, 1)]) as Hd
    by (vm_compute; reflexivity).
  split_and!; [apply remove_outer_white_only_terminates|vm_compute; reflexivity|exact Hd|].
  rewrite Hd. intros Hnd. apply NoDup_cons_1_1 in Hnd. apply Hnd.
  rewrite !elem_of_cons. auto 10.
Qed.

(** ** Trim and scale *)

Lemma pad_value : py_int (float_of_int W * 0.06)%float = Some 61.
Proof. vm_compute. reflexivity. Qed.

Lemma scaled_size_eq gw gh :
  gw ≠ 0 → gh ≠ 0 →
  scaled_size gw gh =
  (let s := py_min (scale_of gw) (scale_of gh) in
   nw ← py_int (float_of_int gw * s)%float;
   nh ← py_int (float_of_int gh * s)%float;
   Some (Z.max 1 nw, Z.max 1 nh)).
Proof.
  intros Hw Hh. unfold scaled_size. rewrite pad_value. cbn [mbind option_bind].
  unfold true_div. rewrite (proj2 (Z.eqb_neq gw 0)), (proj2 (Z.eqb_neq gh 0)) by done.
  reflexivity.
Qed.

Lemma scale_table_checked : check_table scale_table = true.
Proof. vm_compute. reflexivity. Qed.

Lemma scale_table_entry k :
  1 ≤ k ≤ 902 → In (float_of_int k, scale_of k) scale_table.
Proof.
  intros Hk. apply list_elem_of_In. unfold scale_table.
  apply (list_elem_of_fmap_2 (λ k, (float_of_int k, scale_of k))).
  apply elem_of_seqZ. lia.
Qed.

Lemma check_table_spec t a b :
  check_table t = true → In a t → In b t →
  fits_exactly a.1 a.2 = true ∧ check_pair a b = true.
Proof.
  unfold check_table. rewrite forallb_forall. intros Hall Ha Hb.
  apply Hall in Ha as [He Hrow]%andb_true_iff. split; [done|].
  rewrite forallb_forall in Hrow. by apply Hrow.
Qed.

Lemma fits_exactly_spec fg s :
  fits_exactly fg s = true → ∃ n, py_int (fg * s)%float = Some n ∧ 901 ≤ n ≤ 902.
Proof.
  unfold fits_exactly. destruct (py_int _) as [n|]; [|done].
  intros [?%Z.leb_le ?%Z.leb_le]%andb_true_iff. exists n. split; [done|lia].
Qed.

Lemma check_pair_spec a b :
  check_pair a b = true →
  ((b.2 <? a.2)%float = true ∨ (a.2 <? b.2)%float = false) →
  ∃ n, py_int (a.1 * b.2)%float = Some n ∧ n ≤ 902.
Proof.
  unfold check_pair, fits_within. intros Hp Hsel.
  assert ((a.2 <? b.2)%float && negb (b.2 <? a.2)%float = false) as Hc.
  { destruct Hsel as [-> | ->]; [apply andb_false_r|done]. }
  rewrite Hc in Hp. destruct (py_int _) as [n|]; [|done].
  exists n. split; [done|]. by apply Z.leb_le.
Qed.

Lemma scale_own k :
  1 ≤ k ≤ 902 → ∃ n, py_int (float_of_int k * scale_of k)%float = Some n ∧ 901 ≤ n ≤ 902.
Proof.
  intros Hk.
  destruct (check_table_spec scale_table _ _ scale_table_checked
              (scale_table_entry k Hk) (scale_table_entry k Hk)) as [He _].
  exact (fits_exactly_spec _ _ He).
Qed.

Lemma scale_other g k :
  1 ≤ g ≤ 902 → 1 ≤ k ≤ 902 →
  ((scale_of k <? scale_of g)%float = true ∨ (scale_of g <? scale_of k)%float = false) →
  ∃ n, py_int (float_of_int g * scale_of k)%float = Some n ∧ n ≤ 902.
Proof.
  intros Hg Hk Hsel.
  destruct (check_table_spec scale_table _ _ scale_table_checked
              (scale_table_entry g Hg) (scale_table_entry k Hk)) as [_ Hp].
  exact (check_pair_spec _ _ Hp Hsel).
Qed.

(** C7: for a cropped glyph of width and height between 1 and 902 (the
    padded target is 902 by 902, as [pad] is 61), the size handed to
    [resize] has its larger dimension equal to 901 or 902. *)
Theorem scaled_size_fills_target gw gh :
  1 ≤ gw ≤ 902 → 1 ≤ gh ≤ 902 →
  py_int (float_of_int W * 0.06)%float = Some 61 ∧
  ∃ nw nh, scaled_size gw gh = Some (nw, nh) ∧
           901 ≤ Z.max nw nh ≤ W - 2 * 61.
Proof.
  intros Hw Hh. split; [apply pad_value|].
  rewrite scaled_size_eq by lia. unfold py_min. cbn zeta.
  destruct (scale_of gh <? scale_of gw)%float eqn:Hlt.
  - destruct (scale_other gw gh Hw Hh) as (nw & -> & ?); [by left|].
    destruct (scale_own gh Hh) as (nh & -> & ?).
    exists (Z.max 1 nw), (Z.max 1 nh). split; [done|]. unfold W. lia.
  - destruct (scale_own gw Hw) as (nw & -> & ?).
    destruct (scale_other gh gw Hh Hw) as (nh & -> & ?); [by right|].
    exists (Z.max 1 nw), (Z.max 1 nh). split; [done|]. unfold W. lia.
Qed.

Lemma scaled_size_fills_target_witness :
  py_int (float_of_int W * 0.06)%float = Some 61 ∧
  ∃ nw nh, scaled_size 21 10 = Some (nw, nh) ∧ 901 ≤ Z.max nw nh ≤ W - 2 * 61.
Proof. apply (scaled_size_fills_target 21 10); lia. Defined.

(** The bound is tight: a 21 pixel wide glyph is resized to 901, not 902. *)
Example scaled_size_21_10 : scaled_size 21 10 = Some (901, 429).
Proof. vm_compute. reflexivity. Qed.

(** ** Background tints *)

Example dark_tint_value : dark_tint = Some (RGBA 203 144 49 255).
Proof. vm_compute. reflexivity. Qed.

Example light_tint_value : light_tint = Some (RGBA 255 187 63 255).
Proof. vm_compute. reflexivity. Qed.

(** The red channel of the light tint is not the base red times 1.10:
    239 * 1.10 is 262.9 (262 once truncated), but the tint has red 255. *)
Lemma light_tint_red_not_scaled :
  ∃ l, light_tint = Some l ∧
       py_int (float_of_int 239 * 1.10)%float = Some 262 ∧
       Some (red l) ≠ py_int (float_of_int 239 * 1.10)%float ∧
       float_of_int (red l) ≠ (float_of_int 239 * 1.10)%float.
Proof.
  exists (RGBA 255 187 63 255). split_and!.
  - vm_compute. reflexivity.
  - vm_compute. reflexivity.
  - intros Heq. vm_compute in Heq. discriminate Heq.
  - intros Heq. apply (f_equal py_int) in Heq. vm_compute in Heq. discriminate Heq.
Qed.

(** Each channel of the light tint is the base channel times 1.10,
    truncated to an integer and clamped to at most 255; that is
    (255, 187, 63) with alpha 255, the red channel being clamped. *)
Lemma light_tint_channels :
  ∃ r g b,
    py_int (float_of_int (red BASE_COLOR) * 1.10)%float = Some r ∧
    py_int (float_of_int (green BASE_COLOR) * 1.10)%float = Some g ∧
    py_int (float_of_int (blue BASE_COLOR) * 1.10)%float = Some b ∧
    light_tint = Some (RGBA (Z.min 255 r) (Z.min 255 g) (Z.min 255 b) 255) ∧
    (r, g, b) = (262, 187, 63) ∧
    light_tint = Some (RGBA 255 187 63 255).
Proof.
  exists 262, 187, 63. split_and!; vm_compute; reflexivity.
Qed.

(** ** Background synthesis *)

#[local] Arguments image_new : simpl never.
#[local] Arguments range : simpl never.

Section overlay_facts.
Context {A B : Type} (f : A → B → A).

Lemma overlay_length base top : length (overlay f base top) = length base.
Proof.
  unfold overlay. rewrite length_app, length_zip_with, length_drop. lia.
Qed.

Lemma overlay_Forall (P : A → Prop) (Q : B → Prop) base top :
  (∀ a b, P a → Q b → P (f a b)) →
  Forall P base → Forall Q top → Forall P (overlay f base top).
Proof.
  intros Hf Hbase Htop. unfold overlay. apply Forall_app. split.
  - clear -Hf Hbase Htop. revert top Htop.
    induction Hbase as [|a base Ha _ IH]; intros top Htop; [constructor|].
    destruct Htop as [|b top Hb Htop]; [constructor|].
    simpl. constructor; [by apply Hf|by apply IH].
  - by apply Forall_drop.
Qed.

Lemma overlay_lookup base top i a b :
  base !! i = Some a → top !! i = Some b → overlay f base top !! i = Some (f a b).
Proof.
  intros Ha Hb. unfold overlay. rewrite lookup_app_l.
  - by rewrite lookup_zip_with, Ha, Hb.
  - rewrite length_zip_with. apply lookup_lt_Some in Ha, Hb. lia.
Qed.
End overlay_facts.

Lemma Forall_zip_snd {A B} (P : B → Prop) (la : list A) (lb : list B) :
  Forall P lb → Forall (λ x, P x.2) (zip la lb).
Proof.
  intros Hb. revert la. induction Hb as [|b lb Hb _ IH]; intros [|a la]; simpl;
    constructor; [done|apply IH].
Qed.

Lemma blend_opaque m : blend m 255 255 = 255.
Proof.
  unfold blend. replace (255 * (255 - m) + 255 * m) with 65025 by lia. reflexivity.
Qed.

Lemma image_new_dims sz color : grid_dims sz.1 sz.2 (rows (image_new sz color)).
Proof. apply grid_dims_replicate. Qed.

Lemma image_new_opaque sz color : alpha color = 255 → opaque (image_new sz color).
Proof. intros Ha. unfold opaque, image_new. simpl. by do 2 apply Forall_replicate. Qed.

Lemma composite_ok w0 h0 image1 image2 mask :
  size image1 = size image2 → bsize mask = size image2 →
  grid_dims w0 h0 (rows image1) → grid_dims w0 h0 (rows image2) →
  grid_dims w0 h0 (brows mask) →
  opaque image1 → opaque image2 →
  ∃ out, composite image1 image2 mask = Some out ∧ size out = size image2 ∧
         grid_dims w0 h0 (rows out) ∧ opaque out.
Proof.
  intros Hs1 Hsm [Hl1 Hr1] [Hl2 Hr2] [Hlm Hrm] Ho1 Ho2. unfold composite.
  rewrite decide_True by congruence. eexists. split; [done|]. split; [done|].
  cbn [rows]. unfold opaque. cbn [rows].
  match goal with |- context [overlay ?f ?base ?top] =>
    assert (Forall (λ r, length r = Z.to_nat w0 ∧ Forall (λ p, alpha p = 255) r)
              (overlay f base top)) as Hall
  end.
  { apply (overlay_Forall _ _ (λ mr, Forall (λ p, alpha p = 255) mr.2)).
    - intros row2 mr [Hlen Hrow2] Hrow1. split; [by rewrite overlay_length|].
      apply (overlay_Forall _ _ (λ mp, alpha mp.2 = 255)); [|done|].
      + intros p2 mp Hp2 Hp1. simpl. rewrite Hp2, Hp1. apply blend_opaque.
      + by apply (Forall_zip_snd (λ p, alpha p = 255)).
    - apply Forall_and. done.
    - by apply (Forall_zip_snd (Forall (λ p, alpha p = 255))). }
  apply Forall_and in Hall as [Hlen Hop].
  split; [split; [by rewrite overlay_length|done]|done].
Qed.

Lemma mapM_grid {A B} (g : A → option B) w0 h0 (rs : list (list A)) :
  grid_dims w0 h0 rs → Forall (Forall (λ a, is_Some (g a))) rs →
  ∃ rs', mapM (mapM g) rs = Some rs' ∧ grid_dims w0 h0 rs' ∧
         Forall2 (Forall2 (λ a b, g a = Some b)) rs rs'.
Proof.
  intros [Hl Hr] Hok.
  destruct (proj2 (mapM_is_Some (mapM g) rs)) as [rs' Hrs'].
  { eapply Forall_impl; [exact Hok|]. intros r Hrow. simpl. by apply mapM_is_Some. }
  exists rs'. split; [done|].
  apply mapM_Some in Hrs'. split.
  - split; [by rewrite <- (Forall2_length _ _ _ Hrs')|].
    clear Hl Hok. induction Hrs' as [|r r' rs rs' Hrr' _ IH]; [constructor|].
    apply Forall_cons in Hr as [Hr0 Hr]. constructor; [|by apply IH].
    apply length_mapM in Hrr'. lia.
  - eapply Forall2_impl; [exact Hrs'|]. intros r r' Hrr'. by apply mapM_Some.
Qed.

Lemma band_point_ok f lut b :
  mapM f (range 256) = Some lut → length lut = 256%nat → wf_band b →
  ∃ b', band_point f b = Some b' ∧ bsize b' = bsize b ∧
        grid_dims (bsize b).1 (bsize b).2 (brows b') ∧
        (Forall (λ v, 0 ≤ v < 256) lut → wf_band b').
Proof.
  intros Hlut Hlen (Hw & Hh & Hd & Hbytes). unfold band_point.
  rewrite Hlut. cbn [mbind option_bind].
  destruct (mapM_grid (λ p, if in_range 256 p then lut !! Z.to_nat p else None)
              _ _ (brows b) Hd) as (rs' & -> & Hd' & Hrel).
  { eapply Forall_impl; [exact Hbytes|]. intros r Hrow.
    eapply Forall_impl; [exact Hrow|]. intros p Hp. simpl.
    simpl in Hp. rewrite in_range_true by done. apply lookup_lt_is_Some_2.
    rewrite Hlen. lia. }
  cbn [mbind option_bind]. eexists. split; [done|]. split_and!; try done.
  intros Hvals. split_and!; try done. cbn [brows].
  clear Hd Hd' Hbytes. induction Hrel as [|r r' rs rs'' Hrr' _ IH]; constructor; [|done].
  clear IH. induction Hrr' as [|p v r r' Hpv _ IH]; constructor; [|done].
  simpl in Hpv. destruct (in_range 256 p); [|done].
  rewrite Forall_forall in Hvals. apply Hvals. by eapply list_elem_of_lookup_2.
Qed.

Lemma lut_030 :
  ∃ lut, mapM (λ p, py_int (float_of_int p * 0.30)%float) (range 256) = Some lut ∧
         length lut = 256%nat.
Proof. eexists. split; vm_compute; reflexivity. Qed.

Lemma lut_015 :
  ∃ lut, mapM (λ p, py_int (float_of_int p * 0.15)%float) (range 256) = Some lut ∧
         length lut = 256%nat.
Proof. eexists. split; vm_compute; reflexivity. Qed.

Lemma lut_invert :
  ∃ lut, mapM (λ p, Some (255 - p)) (range 256) = Some lut ∧
         length lut = 256%nat ∧ Forall (λ v, 0 ≤ v < 256) lut.
Proof.
  eexists. split_and!; [vm_compute; reflexivity..|].
  apply Forall_forall. intros v Hv.
  repeat (apply elem_of_cons in Hv as [->|Hv]; [lia|]). by apply elem_of_nil in Hv.
Qed.

Lemma opaque_cell im c p :
  opaque im → cell (rows im) c = Some p → alpha p = 255.
Proof.
  unfold opaque, cell. intros Ho Hc.
  destruct (rows im !! Z.to_nat c.2) as [r|] eqn:Hr; [|done]. simpl in Hc.
  rewrite Forall_forall in Ho. specialize (Ho r (list_elem_of_lookup_2 _ _ _ Hr)).
  rewrite Forall_forall in Ho. apply Ho. by eapply list_elem_of_lookup_2.
Qed.

Lemma build_sandstone_background_spec noise :
  wf_band noise → bsize noise = (W, H) →
  ∃ tex, build_sandstone_background noise = Some tex ∧ size tex = (W, H) ∧
         grid_dims W H (rows tex) ∧ opaque tex.
Proof.
  intros Hwf Hsz. unfold build_sandstone_background.
  rewrite dark_tint_value, light_tint_value. cbn [mbind option_bind].
  destruct lut_030 as (l1 & Hl1 & Hn1). destruct lut_015 as (l2 & Hl2 & Hn2).
  destruct lut_invert as (l3 & Hl3 & Hn3 & Hb3).
  destruct (band_point_ok _ _ _ Hl1 Hn1 Hwf) as (m1 & -> & Hs1 & Hd1 & _).
  cbn [mbind option_bind]. rewrite Hsz in Hd1, Hs1. simpl in Hd1.
  destruct (composite_ok W H (image_new (W, H) (RGBA 203 144 49 255))
              (image_new (W, H) BASE_COLOR) m1) as (tex & -> & Hts & Htd & Hto);
    [done|done|apply (image_new_dims (W, H))|apply (image_new_dims (W, H))|done
    |by apply image_new_opaque|by apply image_new_opaque|].
  cbn [mbind option_bind]. unfold invert.
  destruct (band_point_ok _ _ _ Hl3 Hn3 Hwf) as (inv & -> & Hsi & _ & Hwi).
  cbn [mbind option_bind]. specialize (Hwi Hb3).
  destruct (band_point_ok _ _ _ Hl2 Hn2 Hwi) as (m2 & -> & Hs2 & Hd2 & _).
  cbn [mbind option_bind]. rewrite Hsi, Hsz in Hd2, Hs2. simpl in Hd2.
  destruct (composite_ok W H (image_new (W, H) (RGBA 255 187 63 255)) tex m2)
    as (out & -> & Hos & Hod & Hoo);
    [by rewrite Hts|by rewrite Hts|apply (image_new_dims (W, H))|done|done
    |by apply image_new_opaque|done|].
  exists out. split; [reflexivity|]. split; [by rewrite Hos|]. split; [exact Hod|exact Hoo].
Qed.

Lemma flat_noise_wf : wf_band flat_noise.
Proof.
  unfold wf_band, flat_noise. cbn [bsize brows fst snd].
  split_and!; [unfold W; lia|unfold H; lia|apply grid_dims_replicate|].
  do 2 apply Forall_replicate. lia.
Qed.

(** C9: whatever noise field Pillow produces, [build_sandstone_background]
    returns an image of exactly 1024 by 1024 pixels, every one of which
    has alpha 255. *)
Theorem build_sandstone_background_opaque noise :
  wf_band noise → bsize noise = (W, H) →
  ∃ tex, build_sandstone_background noise = Some tex ∧
         size tex = (1024, 1024) ∧ wf_image tex ∧
         ∀ c, inb 1024 1024 c → ∃ p, px_get tex c = Some p ∧ alpha p = 255.
Proof.
  intros Hwf Hsz.
  destruct (build_sandstone_background_spec noise Hwf Hsz) as (tex & Hrun & Hs & Hd & Ho).
  exists tex. split_and!; [done|done| |].
  - unfold wf_image, width, height. rewrite Hs. cbn [fst snd].
    split_and!; [unfold W; lia|unfold H; lia|done].
  - intros c Hc. rewrite px_get_inb by (unfold width, height; by rewrite Hs).
    destruct (cell_is_Some _ _ _ _ Hd Hc) as [p Hp]. exists p. split; [done|].
    by eapply opaque_cell.
Qed.

Lemma build_sandstone_background_opaque_witness :
  ∃ tex, build_sandstone_background flat_noise = Some tex ∧
         size tex = (1024, 1024) ∧ wf_image tex ∧
         ∀ c, inb 1024 1024 c → ∃ p, px_get tex c = Some p ∧ alpha p = 255.
Proof.
  apply (build_sandstone_background_opaque flat_noise).
  - apply flat_noise_wf.
  - reflexivity.
Defined.

(** ** Orchestration *)

Lemma compose_missing pil w :
  files w !! GLYPH_PATH = None →
  compose pil w = (inl (ExcFileNotFound ("Glyph not found: " +:+ GLYPH_PATH)), w).
Proof.
  intros Hno. unfold compose, mbind, M_bind, isfile.
  rewrite bool_decide_false; [done|]. rewrite Hno. by intros [? ?].
Qed.

Section compose_present.
Context (pil : Pillow) (w : World) (bytes : string).
Hypothesis Hfile : files w !! GLYPH_PATH = Some bytes.

#[local] Opaque build_sandstone_background remove_outer_white_only scaled_size
  GLYPH_PATH BASE_OUT W H.

End compose_present.



(** * Further properties of [remove_outer_white_only] *)

Lemma inlet3_wf : wf_image inlet3.
Proof. solve_wf. Qed.

Lemma strip03_wf : wf_image strip03.
Proof. solve_wf. Qed.

(** X1: on an image with at least one pixel the call returns, keeps the
    size and shape of the image, and makes transparent exactly the pixels
    joined to the border by a 4-connected path of white pixels, however
    far inside they lie; every other pixel keeps its value. *)
Theorem flood_fill_exact im c p :
  wf_image im → inb (width im) (height im) c → px_get im c = Some p →
  ∃ im', remove_outer_white_only im = (Returned, im') ∧
         size im' = size im ∧ wf_image im' ∧
         (((∃ path, white_path_to_border im c path) ∧
           px_get im' c = Some (transparent p)) ∨
          ((∀ path, ¬ white_path_to_border im c path) ∧
           px_get im' c = Some p)).
Proof.
  intros Hwf Hc Hp.
  destruct (remove_outer_white_only_proper im Hwf) as (im' & Hrun & Hs & Hwf' & Hcells);
    [destruct Hc; lia..|].
  exists im'. split_and!; [done..|].
  rewrite px_get_inb in Hp by done.
  rewrite px_get_inb by (unfold width, height; by rewrite Hs).
  destruct (Hcells c Hc) as [[Hbc ->]|[Hn ->]]; rewrite Hp; simpl.
  - left. split; [by apply border_connected_path|done].
  - right. split; [|done]. intros path Hpath. apply Hn, border_connected_path. eauto.
Qed.

Lemma flood_fill_exact_witness :
  ∃ im', remove_outer_white_only inlet3 = (Returned, im') ∧
         size im' = size inlet3 ∧ wf_image im' ∧
         (((∃ path, white_path_to_border inlet3 (1, 1) path) ∧
           px_get im' (1, 1) = Some (transparent W_)) ∨
          ((∀ path, ¬ white_path_to_border inlet3 (1, 1) path) ∧
           px_get im' (1, 1) = Some W_)).
Proof.
  apply (flood_fill_exact inlet3 (1, 1) W_).
  - apply inlet3_wf.
  - unfold inb, width, height; simpl; lia.
  - reflexivity.
Defined.

Example inlet3_run :
  remove_outer_white_only inlet3 =
  (Returned, mkImage (3, 3) [[K_; K_; K_]; [T_; T_; K_]; [T_; K_; K_]]).
Proof. vm_compute. reflexivity. Qed.

(** X2: a pixel that does not satisfy the white predicate (too dark, or
    already transparent) is never modified, wherever it lies. *)
Theorem non_white_pixel_kept im c p :
  wf_image im → inb (width im) (height im) c → px_get im c = Some p →
  white_pixel p = false →
  px_get (remove_outer_white_only im).2 c = Some p.
Proof.
  intros Hwf Hc Hp Hw.
  destruct (remove_outer_white_only_proper im Hwf) as (im' & -> & Hs & _ & Hcells);
    [destruct Hc; lia..|].
  simpl. rewrite px_get_inb in Hp by done.
  rewrite px_get_inb by (unfold width, height; by rewrite Hs).
  destruct (Hcells c Hc) as [[Hbc _]|[_ ->]]; [|done].
  assert (white_at im c) as [_ (p' & Hp' & Hw')]%white_at_cell by (by destruct Hbc).
  congruence.
Qed.

Lemma non_white_pixel_kept_witness :
  px_get (remove_outer_white_only inlet3).2 (0, 2) = Some T_.
Proof.
  apply (non_white_pixel_kept inlet3 (0, 2) T_).
  - apply inlet3_wf.
  - unfold inb, width, height; simpl; lia.
  - reflexivity.
  - reflexivity.
Defined.

(** X3: an image without pixels is left untouched: the call returns at
    once on the 0 by 0 image, and raises [IndexError] at the first
    seeding test when exactly one of width and height is zero. *)
Theorem empty_image_behaviour im :
  wf_image im → width im = 0 ∨ height im = 0 →
  (remove_outer_white_only im).2 = im ∧
  (width im = 0 → height im = 0 → (remove_outer_white_only im).1 = Returned) ∧
  (width im ≠ 0 ∨ height im ≠ 0 → (remove_outer_white_only im).1 = IndexError).
Proof.
  intros Hwf Hz. rewrite (remove_outer_white_only_degenerate im Hwf Hz). simpl.
  split_and!; [done|..].
  - intros -> ->. done.
  - intros [Hn|Hn].
    + by rewrite (proj2 (Z.eqb_neq _ _) Hn).
    + rewrite (proj2 (Z.eqb_neq _ _) Hn), andb_false_r. done.
Qed.

Lemma empty_image_behaviour_witness :
  (remove_outer_white_only strip03).2 = strip03 ∧
  (width strip03 = 0 → height strip03 = 0 →
   (remove_outer_white_only strip03).1 = Returned) ∧
  (width strip03 ≠ 0 ∨ height strip03 ≠ 0 →
   (remove_outer_white_only strip03).1 = IndexError).
Proof.
  apply (empty_image_behaviour strip03).
  - apply strip03_wf.
  - left. reflexivity.
Defined.

(** X4: after the call no pixel on the border satisfies the white
    predicate, and no pixel at all has a 4-connected path of white pixels
    to the border. *)
Theorem no_white_border_left im :
  wf_image im →
  (∀ c, on_border (width im) (height im) c →
        ¬ white_at (remove_outer_white_only im).2 c) ∧
  (∀ c path, ¬ white_path_to_border (remove_outer_white_only im).2 c path).
Proof.
  intros Hwf.
  assert (Hb : ∀ c, on_border (width im) (height im) c →
                    ¬ white_at (remove_outer_white_only im).2 c).
  { destruct (wf_image_cases im Hwf) as [[Hw Hh]|Hz].
    - destruct (remove_outer_white_only_proper im Hwf Hw Hh)
        as (im' & -> & Hs & Hwf' & Hcells). simpl.
      assert (Hw' : width im' = width im) by (unfold width; by rewrite Hs).
      assert (Hh' : height im' = height im) by (unfold height; by rewrite Hs).
      intros c Hbd [Hc (p' & Hp' & Hwp')]%white_at_cell.
      rewrite Hw', Hh' in Hc.
      destruct (Hcells c Hc) as [[_ He]|[Hn He]]; rewrite He in Hp'.
      + destruct (cell (rows im) c) as [p|]; [|done]. simpl in Hp'. by simplify_eq.
      + apply Hn, bc_border; [|done]. apply white_at_cell. eauto.
    - rewrite (remove_outer_white_only_degenerate im Hwf Hz). simpl.
      intros c _ [[Hx Hy] _]. lia. }
  split; [done|]. intros c path Hpath.
  assert (border_connected (remove_outer_white_only im).2 c) as Hbc
    by (apply border_connected_path; eauto).
  assert (size (remove_outer_white_only im).2 = size im) as Hs.
  { destruct (wf_image_cases im Hwf) as [[Hw Hh]|Hz].
    - by destruct (remove_outer_white_only_proper im Hwf Hw Hh) as (im' & -> & Hs & _).
    - by rewrite (remove_outer_white_only_degenerate im Hwf Hz). }
  clear Hpath. induction Hbc as [c Hw Hbd|c c' _ _ _ IH]; [|done].
  apply (Hb c); [|done]. unfold width, height in *. by rewrite <- Hs.
Qed.

Lemma no_white_border_left_witness :
  (∀ c, on_border (width ring3) (height ring3) c →
        ¬ white_at (remove_outer_white_only ring3).2 c) ∧
  (∀ c path, ¬ white_path_to_border (remove_outer_white_only ring3).2 c path).
Proof. apply (no_white_border_left ring3), ring3_wf. Defined.

(** X11: an image none of whose border pixels satisfies the white
    predicate comes back unchanged, whatever white pixels it has inside. *)
Theorem framed_image_unchanged im :
  wf_image im →
  (∀ c p, inb (width im) (height im) c → on_border (width im) (height im) c →
          px_get im c = Some p → white_pixel p = false) →
  (remove_outer_white_only im).2 = im.
Proof.
  intros Hwf Hno. apply remove_outer_white_only_no_seed; [done|].
  intros c Hb [Hc (p & Hp & Hw)]%white_at_cell.
  rewrite <- px_get_inb in Hp by done. rewrite (Hno c p Hc Hb Hp) in Hw. done.
Qed.

Lemma framed_image_unchanged_witness :
  (remove_outer_white_only (mkImage (3, 3) [[K_; K_; K_]; [K_; W_; K_]; [K_; K_; K_]])).2 =
  mkImage (3, 3) [[K_; K_; K_]; [K_; W_; K_]; [K_; K_; K_]].
Proof.
  apply (framed_image_unchanged (mkImage (3, 3) [[K_; K_; K_]; [K_; W_; K_]; [K_; K_; K_]])).
  - solve_wf.
  - intros [x y] p [Hx Hy] Hb. unfold width, height, on_border in *. simpl in *.
    assert ((x = 0 ∨ x = 1 ∨ x = 2) ∧ (y = 0 ∨ y = 1 ∨ y = 2)) as [Hx' Hy'] by lia.
    destruct Hx' as [-> |[-> | ->]], Hy' as [-> |[-> | ->]];
      try (intros [= <-]; reflexivity).
    exfalso. simpl in Hb. lia.
Defined.

(** ** Cost of the flood fill *)

Lemma visit_dequeued w0 h0 n st st' :
  visit w0 h0 n st = Some st' → dequeued st' = dequeued st.
Proof.
  unfold visit. intros Hv.
  destruct (in_range w0 n.1 && in_range h0 n.2); [|by simplify_eq].
  destruct (visited_get (visited st) n) as [[|]|]; simpl in Hv; [by simplify_eq| |done].
  destruct (is_white (px st) n) as [[|]|]; simpl in Hv; [|by simplify_eq|done].
  destruct (visited_mark (visited st) n); simpl in Hv; [|done]. by simplify_eq.
Qed.

Lemma process_dequeued w0 h0 c st st' :
  process w0 h0 c st = Some st' → dequeued st' = dequeued st.
Proof.
  unfold process. intros Hp.
  destruct (px_get (px st) c) as [p|]; cbn [mbind option_bind] in Hp; [|done].
  destruct (px_set (px st) c _) as [px'|]; cbn [mbind option_bind] in Hp; [|done].
  eapply (for_each_inv (λ s, dequeued s = dequeued st)) in Hp; [done| |done].
  intros a s1 s2 _ Hv <-. by eapply visit_dequeued.
Qed.

Lemma bfs_dequeued_bound fuel w0 h0 st :
  (length (dequeued (bfs fuel w0 h0 st).2) ≤ length (dequeued st) + measure st)%nat.
Proof.
  revert st. induction fuel as [|fuel IH]; intros st; simpl.
  - destruct (q st); simpl; lia.
  - destruct (q st) as [|c rest] eqn:Hq; [simpl; lia|].
    destruct (process _ _ _ _) as [st'|] eqn:Hp; [|simpl; lia].
    etrans; [apply IH|].
    rewrite (process_dequeued _ _ _ _ _ Hp), (process_measure _ _ _ _ _ Hp).
    unfold measure. rewrite Hq. simpl. rewrite length_app. simpl. lia.
Qed.

Lemma nfalse_insert_le (l : list bool) i : (nfalse (<[i:=true]> l) ≤ nfalse l)%nat.
Proof.
  revert i. induction l as [|b l IH]; intros [|i]; simpl; [lia..| |].
  - destruct b; lia.
  - specialize (IH i). lia.
Qed.

Lemma visited_mark_le g c g' :
  visited_mark g c = Some g' → (unvisited g' ≤ unvisited g)%nat.
Proof.
  unfold visited_mark. intros Hm.
  destruct (py_getitem g c.2) as [r|] eqn:Hr; [|done]. simpl in Hm.
  destruct (py_setitem r c.1 true) as [r'|] eqn:Hr'; [|done]. simpl in Hm.
  apply py_getitem_Some in Hr. apply py_setitem_Some in Hr', Hm. subst g' r'.
  pose proof (unvisited_insert g _ r (<[Z.to_nat (wrap (Z.of_nat (length r)) c.1):=true]> r) Hr).
  pose proof (nfalse_insert_le r (Z.to_nat (wrap (Z.of_nat (length r)) c.1))). lia.
Qed.

Lemma seeds_size im l s s' :
  for_each l (seed im) s = Some s' →
  (length s'.2 ≤ length s.2 + length l)%nat ∧ (unvisited s'.1 ≤ unvisited s.1)%nat.
Proof.
  revert s. induction l as [|c l IH]; intros s Hrun; simpl in Hrun.
  - simplify_eq. simpl. lia.
  - destruct (seed im c s) as [s1|] eqn:Hs1; [|done]. simpl in Hrun.
    destruct (IH s1 Hrun) as [Hq Hu]. unfold seed in Hs1.
    destruct (is_white im c) as [[|]|]; simpl in Hs1; [|simplify_eq; simpl; lia|done].
    destruct (visited_mark s.1 c) as [v'|] eqn:Hm; simpl in Hs1; [|done].
    simplify_eq. simpl in *. rewrite length_app in Hq. simpl in Hq.
    pose proof (visited_mark_le _ _ _ Hm). lia.
Qed.

Lemma seed_coords_length w0 h0 :
  length (seed_coords w0 h0) = (2 * Z.to_nat w0 + 2 * Z.to_nat h0)%nat.
Proof.
  assert (Hpair : ∀ (f g : Z → coord) l, length (l ≫= λ a, [f a; g a]) = (2 * length l)%nat).
  { intros f g l. induction l as [|a l IH]; [done|]. cbn in *. lia. }
  unfold seed_coords, range. rewrite length_app, !Hpair, !length_seqZ. lia.
Qed.

Lemma unvisited_replicate n m :
  unvisited (replicate n (replicate m false)) = (n * m)%nat.
Proof.
  assert (nfalse (replicate m false) = m) as Hrow.
  { induction m as [|m IH]; simpl; [done|]. by rewrite IH. }
  induction n as [|n IH]; simpl; [done|]. rewrite Hrow, IH. lia.
Qed.

(** X5: for every image the loop exits, and it dequeues at most
    2(w + h) + w h coordinates: the seeding loops queue at most 2(w + h)
    and each cell of [visited] is marked, and so queued by the loop, at
    most once. *)
Theorem flood_fill_linear glyph :
  (remove_outer_white_only_run glyph).1 ≠ OutOfFuel ∧
  (length (dequeued (remove_outer_white_only_run glyph).2) ≤
   2 * (Z.to_nat (width glyph) + Z.to_nat (height glyph)) +
   Z.to_nat (width glyph) * Z.to_nat (height glyph))%nat.
Proof.
  split; [apply remove_outer_white_only_terminates|].
  unfold remove_outer_white_only_run.
  destruct (seed_borders glyph) as [[v q0]|] eqn:Hs; [|simpl; lia].
  etrans; [apply bfs_dequeued_bound|]. unfold measure. simpl.
  rewrite seed_borders_flat in Hs. apply seeds_size in Hs as [Hq Hu]. simpl in *.
  rewrite seed_coords_length in Hq. rewrite unvisited_replicate in Hu. lia.
Qed.

(** * Further properties of [compose] and of the scaling *)

Section compose_effects.
Context (pil : Pillow) (w : World).

#[local] Opaque build_sandstone_background remove_outer_white_only scaled_size
  GLYPH_PATH BASE_OUT W H.

Lemma compose_cases :
  (∃ e st, compose pil w = (inl e, mkWorld (files w) (stdout w) st)) ∨
  (∃ out,
     compose pil w =
     (inr (), mkWorld (<[BASE_OUT := out]> (files w))
                (stdout w ++ ["WROTE_BASE " +:+ BASE_OUT])
                (stages w ++ [BuildBackground; OpenGlyph; RemoveWhite;
                               TrimScale; Paste; Save]))).
Proof.
  destruct (files w !! GLYPH_PATH) as [bytes|] eqn:Hfile.
  2:{ left. rewrite compose_missing by done. destruct w. by do 2 eexists. }
  cbv beta iota zeta delta
    [compose mbind M_bind isfile enter lift image_open remove_white image_save
     print2 raise mret M_ret].
  rewrite bool_decide_true by (rewrite Hfile; eauto).
  cbn [negb files stdout stages].
  destruct (build_sandstone_background (effect_noise pil)) as [canvas|];
    [|left; by do 2 eexists].
  cbn [files stdout stages]. rewrite Hfile.
  destruct (open_rgba pil bytes) as [glyph|]; [|left; by do 2 eexists].
  cbn [files stdout stages].
  destruct (remove_outer_white_only glyph) as [[| |] glyph'];
    [|left; by do 2 eexists..].
  cbn [files stdout stages].
  destruct (scaled_size _ _) as [new_size|]; [|left; by do 2 eexists].
  cbn [files stdout stages]. right. eexists.
  rewrite <- !(assoc_L (++)). reflexivity.
Qed.
End compose_effects.

(** X6: whatever Pillow does and however [compose] ends, no path other
    than [BASE_OUT] changes; when a step raises (all of them come before
    the save, which is taken to succeed), no file at all is written and
    nothing is printed; when it returns, exactly one line has been printed
    and the six stages were entered once each, in the order background,
    open, white removal, trim and scale, paste, save. *)
Theorem compose_effects pil w :
  (∀ path, path ≠ BASE_OUT →
           files (compose pil w).2 !! path = files w !! path) ∧
  (∀ e, (compose pil w).1 = inl e →
        files (compose pil w).2 = files w ∧
        stdout (compose pil w).2 = stdout w) ∧
  ((compose pil w).1 = inr () →
   stdout (compose pil w).2 = stdout w ++ ["WROTE_BASE " +:+ BASE_OUT] ∧
   stages (compose pil w).2 =
     stages w ++ [BuildBackground; OpenGlyph; RemoveWhite; TrimScale; Paste; Save]).
Proof.
  destruct (compose_cases pil w) as [(e & st & ->)|(out & ->)]; simpl.
  - split_and!; [done|done|]. intros [=].
  - split_and!; [|intros e [=]|done].
    intros path Hne. by rewrite lookup_insert_ne.
Qed.

(** The glyph handed to [resize]: the cleaned glyph cropped to its
    bounding box when it has one. *)
Lemma scaled_size_in_target gw gh :
  1 ≤ gw ≤ 902 → 1 ≤ gh ≤ 902 →
  ∃ nw nh, scaled_size gw gh = Some (nw, nh) ∧ 1 ≤ nw ≤ 902 ∧ 1 ≤ nh ≤ 902.
Proof.
  intros Hw Hh. rewrite scaled_size_eq by lia. unfold py_min. cbn zeta.
  destruct (scale_of gh <? scale_of gw)%float eqn:Hlt.
  - destruct (scale_other gw gh Hw Hh) as (nw & -> & ?); [by left|].
    destruct (scale_own gh Hh) as (nh & -> & ?).
    exists (Z.max 1 nw), (Z.max 1 nh). split; [done|]. lia.
  - destruct (scale_own gw Hw) as (nw & -> & ?).
    destruct (scale_other gh gw Hh Hw) as (nh & -> & ?); [by right|].
    exists (Z.max 1 nw), (Z.max 1 nh). split; [done|]. lia.
Qed.

(** X7: for a cropped glyph of width and height between 1 and 902, both
    resized dimensions lie between 1 and 902, so the centring offsets
    [(W - nw) // 2] and [(H - nh) // 2] are at least the padding 61 and the
    pasted glyph ends at most at 1024 - 61 in both directions: it stays
    inside the padded region of the canvas. *)
Theorem resized_glyph_inside_padding gw gh :
  1 ≤ gw ≤ 902 → 1 ≤ gh ≤ 902 →
  ∃ nw nh, scaled_size gw gh = Some (nw, nh) ∧
           1 ≤ nw ≤ 902 ∧ 1 ≤ nh ≤ 902 ∧
           61 ≤ (W - nw) `div` 2 ∧ (W - nw) `div` 2 + nw ≤ W - 61 ∧
           61 ≤ (H - nh) `div` 2 ∧ (H - nh) `div` 2 + nh ≤ H - 61.
Proof.
  intros Hw Hh.
  destruct (scaled_size_in_target gw gh Hw Hh) as (nw & nh & Hs & Hnw & Hnh).
  exists nw, nh. split; [done|]. unfold W, H.
  pose proof (Z.div_mod (1024 - nw) 2). pose proof (Z.mod_pos_bound (1024 - nw) 2).
  pose proof (Z.div_mod (1024 - nh) 2). pose proof (Z.mod_pos_bound (1024 - nh) 2).
  lia.
Qed.

Lemma resized_glyph_inside_padding_witness :
  ∃ nw nh, scaled_size 300 901 = Some (nw, nh) ∧
           1 ≤ nw ≤ 902 ∧ 1 ≤ nh ≤ 902 ∧
           61 ≤ (W - nw) `div` 2 ∧ (W - nw) `div` 2 + nw ≤ W - 61 ∧
           61 ≤ (H - nh) `div` 2 ∧ (H - nh) `div` 2 + nh ≤ H - 61.
Proof. apply (resized_glyph_inside_padding 300 901); lia. Defined.

Section compose_success.
Context (pil : Pillow) (w : World) (bytes : string) (glyph : Image).

#[local] Opaque build_sandstone_background remove_outer_white_only scaled_size
  GLYPH_PATH BASE_OUT W H.

End compose_success.



(** * Further properties of [build_sandstone_background] *)

Lemma composite_cell image1 image2 mask out c p1 p2 m :
  composite image1 image2 mask = Some out →
  cell (rows image1) c = Some p1 → cell (rows image2) c = Some p2 →
  cell (brows mask) c = Some m →
  cell (rows out) c = Some (blend_pixel m p2 p1).
Proof.
  unfold composite. case_decide; [|done]. intros [= <-] H1 H2 Hm. cbn [rows].
  unfold cell in *.
  destruct (rows image1 !! Z.to_nat c.2) as [r1|] eqn:Hr1; [|done].
  destruct (rows image2 !! Z.to_nat c.2) as [r2|] eqn:Hr2; [|done].
  destruct (brows mask !! Z.to_nat c.2) as [rm|] eqn:Hrm; [|done]. simpl in *.
  rewrite (overlay_lookup _ _ _ _ r2 (rm, r1) Hr2)
    by (by rewrite lookup_zip_with, Hrm, Hr1).
  cbn [mbind option_bind fst snd].
  apply (overlay_lookup (λ p2 mp, blend_pixel mp.1 p2 mp.2) r2 (zip rm r1) _ p2 (m, p1));
    [exact H2|].
  by rewrite lookup_zip_with, Hm, H1.
Qed.

Lemma band_point_cell f b b' c p :
  band_point f b = Some b' → cell (brows b) c = Some p →
  ∃ v, f p = Some v ∧ cell (brows b') c = Some v.
Proof.
  unfold band_point. intros Hbp Hc.
  destruct (mapM f (range 256)) as [lut|] eqn:Hlut; [|done]. simpl in Hbp.
  destruct (mapM _ (brows b)) as [rs'|] eqn:Hrs; [|done]. simpl in Hbp.
  simplify_eq. simpl. apply mapM_Some in Hrs. unfold cell in *.
  destruct (brows b !! Z.to_nat c.2) as [r|] eqn:Hr; [|done]. simpl in Hc.
  destruct (Forall2_lookup_l _ _ _ _ _ Hrs Hr) as (r' & Hr' & Hrr').
  rewrite Hr'. simpl. apply mapM_Some in Hrr'.
  destruct (Forall2_lookup_l _ _ _ _ _ Hrr' Hc) as (v & Hv & Hpv).
  exists v. split; [|done]. simpl in Hpv.
  destruct (in_range 256 p) eqn:Hin; [|done]. apply in_range_spec in Hin.
  apply mapM_Some in Hlut.
  destruct (Forall2_lookup_r _ _ _ _ _ Hlut Hpv) as (x & Hx & Hfx).
  unfold range in Hx. apply lookup_seqZ in Hx as [-> _].
  by replace (0 + Z.of_nat (Z.to_nat p)) with p in Hfx by lia.
Qed.

Lemma build_cell noise tex c p :
  build_sandstone_background noise = Some tex → inb W H c →
  cell (brows noise) c = Some p →
  ∃ t, texel p = Some t ∧ cell (rows tex) c = Some t.
Proof.
  unfold build_sandstone_background, texel.
  rewrite dark_tint_value, light_tint_value. cbn [mbind option_bind].
  intros Hb Hc Hp.
  destruct (band_point _ noise) as [m1|] eqn:Hm1; [|done]. cbn [mbind option_bind] in Hb.
  destruct (composite _ _ m1) as [tex1|] eqn:Ht1; [|done]. cbn [mbind option_bind] in Hb.
  destruct (invert noise) as [inv|] eqn:Hinv; [|done]. cbn [mbind option_bind] in Hb.
  destruct (band_point _ inv) as [m2|] eqn:Hm2; [|done]. cbn [mbind option_bind] in Hb.
  destruct (band_point_cell _ _ _ _ _ Hm1 Hp) as (v1 & -> & Hc1).
  destruct (band_point_cell _ _ _ _ _ Hinv Hp) as (pi & [= <-] & Hci).
  destruct (band_point_cell _ _ _ _ _ Hm2 Hci) as (v2 & -> & Hc2).
  cbn [mbind option_bind]. eexists. split; [done|].
  eapply composite_cell; [exact Hb|apply (cell_replicate _ W H c Hc)| |exact Hc2].
  eapply composite_cell; [exact Ht1|apply (cell_replicate _ W H c Hc)..|exact Hc1].
Qed.

Lemma wf_band_byte noise c p :
  wf_band noise → cell (brows noise) c = Some p → 0 ≤ p < 256.
Proof.
  intros (_ & _ & _ & Hb) Hc. unfold cell in Hc.
  destruct (brows noise !! Z.to_nat c.2) as [r|] eqn:Hr; [|done]. simpl in Hc.
  rewrite Forall_forall in Hb. specialize (Hb r (list_elem_of_lookup_2 _ _ _ Hr)).
  rewrite Forall_forall in Hb. apply Hb. by eapply list_elem_of_lookup_2.
Qed.

Lemma ramp_noise_wf : wf_band ramp_noise.
Proof.
  unfold wf_band, ramp_noise. cbn [bsize brows fst snd].
  split_and!; [unfold W; lia|unfold H; lia| |].
  - split; [apply length_replicate|]. apply Forall_replicate.
    by rewrite length_fmap, length_seqZ.
  - apply Forall_replicate, Forall_fmap, Forall_forall. intros x _. simpl.
    apply Z.mod_pos_bound. lia.
Qed.

Lemma background_pixel_at noise c p :
  wf_band noise → bsize noise = (W, H) → inb W H c →
  cell (brows noise) c = Some p →
  ∃ tex t, build_sandstone_background noise = Some tex ∧
           texel p = Some t ∧ px_get tex c = Some t.
Proof.
  intros Hwf Hsz Hc Hp.
  destruct (build_sandstone_background_spec noise Hwf Hsz) as (tex & Hrun & Hs & _).
  destruct (build_cell noise tex c p Hrun Hc Hp) as (t & Ht & Hcell).
  exists tex, t. split_and!; [done..|].
  rewrite px_get_inb; [done|]. unfold width, height. by rewrite Hs.
Qed.

(** X9: every pixel of the background is determined by the noise byte at
    its own position alone: it is [texel p] for the byte [p] there, that
    is, the base colour blended toward the dark tint with weight
    [int(p * 0.30)] out of 255 and then toward the light tint with weight
    [int((255 - p) * 0.15)] out of 255. *)
Theorem background_pixel_from_noise noise c p :
  wf_band noise → bsize noise = (W, H) → inb W H c →
  cell (brows noise) c = Some p →
  ∃ tex t, build_sandstone_background noise = Some tex ∧
           texel p = Some t ∧ px_get tex c = Some t.
Proof. apply background_pixel_at. Qed.

Lemma background_pixel_from_noise_witness :
  ∃ tex t, build_sandstone_background ramp_noise = Some tex ∧
           texel 200 = Some t ∧ px_get tex (200, 5) = Some t.
Proof.
  apply (background_pixel_from_noise ramp_noise (200, 5) 200).
  - apply ramp_noise_wf.
  - reflexivity.
  - unfold inb, W, H; simpl; lia.
  - vm_compute. reflexivity.
Defined.

Lemma texel_steps_down_checked : texel_steps_down = true.
Proof. vm_compute. reflexivity. Qed.

Lemma no_lighterb_spec a b : no_lighterb a b = true → no_lighter a b.
Proof.
  unfold no_lighterb, no_lighter. rewrite !andb_true_iff, !Z.leb_le. tauto.
Qed.

Lemma texel_step p :
  0 ≤ p < 255 → ∃ a b, texel p = Some a ∧ texel (p + 1) = Some b ∧ no_lighter b a.
Proof.
  intros Hp. pose proof texel_steps_down_checked as Hall.
  unfold texel_steps_down in Hall. rewrite forallb_forall in Hall.
  specialize (Hall p). destruct (texel p) as [a|], (texel (p + 1)) as [b|].
  - exists a, b. split_and!; [done..|]. apply no_lighterb_spec, Hall.
    apply list_elem_of_In, elem_of_seqZ. lia.
  - exfalso. apply Bool.diff_false_true, Hall, list_elem_of_In, elem_of_seqZ. lia.
  - exfalso. apply Bool.diff_false_true, Hall, list_elem_of_In, elem_of_seqZ. lia.
  - exfalso. apply Bool.diff_false_true, Hall, list_elem_of_In, elem_of_seqZ. lia.
Qed.

Lemma texel_defined p : 0 ≤ p < 256 → ∃ a, texel p = Some a.
Proof.
  intros Hp. destruct (decide (p < 255)) as [Hlt|Hge].
  - destruct (texel_step p) as (a & _ & Ha & _); [lia|eauto].
  - destruct (texel_step 254) as (_ & b & _ & Hb & _); [lia|].
    replace p with (254 + 1) by lia. eauto.
Qed.

Lemma texel_monotone p p' :
  0 ≤ p → p ≤ p' → p' < 256 →
  ∃ a b, texel p = Some a ∧ texel p' = Some b ∧ no_lighter b a.
Proof.
  intros Hp Hle Hp'.
  assert (∃ n : nat, p' = p + Z.of_nat n) as [n ->] by (exists (Z.to_nat (p' - p)); lia).
  clear Hle. induction n as [|n IH].
  - rewrite Z.add_0_r. destruct (texel_defined p) as [a Ha]; [lia|].
    exists a, a. unfold no_lighter. split_and!; try done; lia.
  - destruct IH as (a & b & Ha & Hb & Hab); [lia|].
    destruct (texel_step (p + Z.of_nat n)) as (b' & d & Hb' & Hd & Hbd); [lia|].
    rewrite Hb in Hb'. simplify_eq.
    replace (p + Z.of_nat (S n)) with (p + Z.of_nat n + 1) by lia.
    exists a, d. split_and!; [done..|]. unfold no_lighter in *. lia.
Qed.

Example texel_lightest : texel 0 = Some (RGBA 241 173 59 255).
Proof. vm_compute. reflexivity. Qed.

Example texel_darkest : texel 255 = Some (RGBA 228 162 55 255).
Proof. vm_compute. reflexivity. Qed.

(** X10: the background is darker where the noise is higher: of two
    pixels, the one whose noise byte is greater or equal is channel by
    channel no lighter than the other; and every pixel lies between
    (228, 162, 55), reached at noise 255, and (241, 173, 59), reached at
    noise 0. *)
Theorem background_darker_where_noise_higher noise c c' p p' :
  wf_band noise → bsize noise = (W, H) → inb W H c → inb W H c' →
  cell (brows noise) c = Some p → cell (brows noise) c' = Some p' → p ≤ p' →
  ∃ tex t t', build_sandstone_background noise = Some tex ∧
              px_get tex c = Some t ∧ px_get tex c' = Some t' ∧
              no_lighter t' t ∧
              no_lighter (RGBA 228 162 55 255) t' ∧
              no_lighter t (RGBA 241 173 59 255).
Proof.
  intros Hwf Hsz Hc Hc' Hp Hp' Hle.
  pose proof (wf_band_byte _ _ _ Hwf Hp). pose proof (wf_band_byte _ _ _ Hwf Hp').
  destruct (background_pixel_at noise c p Hwf Hsz Hc Hp) as (tex & t & Hrun & Ht & Hpx).
  destruct (background_pixel_at noise c' p' Hwf Hsz Hc' Hp') as (tex' & t' & Hrun' & Ht' & Hpx').
  rewrite Hrun in Hrun'. injection Hrun' as <-.
  exists tex, t, t'. split_and!; [done..| | |].
  - destruct (texel_monotone p p') as (a & b & Ha & Hb & Hab); [lia..|]. congruence.
  - destruct (texel_monotone p' 255) as (a & b & Ha & Hb & Hab); [lia..|].
    rewrite texel_darkest in Hb. congruence.
  - destruct (texel_monotone 0 p) as (a & b & Ha & Hb & Hab); [lia..|].
    rewrite texel_lightest in Ha. congruence.
Qed.

Lemma background_darker_where_noise_higher_witness :
  ∃ tex t t', build_sandstone_background ramp_noise = Some tex ∧
              px_get tex (3, 0) = Some t ∧ px_get tex (200, 5) = Some t' ∧
              no_lighter t' t ∧
              no_lighter (RGBA 228 162 55 255) t' ∧
              no_lighter t (RGBA 241 173 59 255).
Proof.
  apply (background_darker_where_noise_higher ramp_noise (3, 0) (200, 5) 3 200).
  - apply ramp_noise_wf.
  - reflexivity.
  - unfold inb, W, H; simpl; lia.
  - unfold inb, W, H; simpl; lia.
  - vm_compute. reflexivity.
  - vm_compute. reflexivity.
  - lia.
Defined.

(** * Where the light tint goes *)

Lemma high_noise_wf : wf_band high_noise.
Proof.
  unfold wf_band, high_noise. cbn [bsize brows fst snd].
  split_and!; [unfold W; lia|unfold H; lia|apply grid_dims_replicate|].
  do 2 apply Forall_replicate. lia.
Qed.

Lemma light_weight_steps_down_checked : light_weight_steps_down = true.
Proof. vm_compute. reflexivity. Qed.

Lemma light_weight_step p :
  0 ≤ p < 255 →
  ∃ a b, light_weight p = Some a ∧ light_weight (p + 1) = Some b ∧ b ≤ a.
Proof.
  intros Hp. pose proof light_weight_steps_down_checked as Hall.
  unfold light_weight_steps_down in Hall. rewrite forallb_forall in Hall.
  specialize (Hall p).
  destruct (light_weight p) as [a|], (light_weight (p + 1)) as [b|].
  - exists a, b. split_and!; [done..|]. apply Z.leb_le, Hall.
    apply list_elem_of_In, elem_of_seqZ. lia.
  - exfalso. apply Bool.diff_false_true, Hall, list_elem_of_In, elem_of_seqZ. lia.
  - exfalso. apply Bool.diff_false_true, Hall, list_elem_of_In, elem_of_seqZ. lia.
  - exfalso. apply Bool.diff_false_true, Hall, list_elem_of_In, elem_of_seqZ. lia.
Qed.

Lemma light_weight_monotone p p' :
  0 ≤ p → p ≤ p' → p' < 256 →
  ∃ a b, light_weight p = Some a ∧ light_weight p' = Some b ∧ b ≤ a.
Proof.
  intros Hp Hle Hp'.
  assert (∃ n : nat, p' = p + Z.of_nat n) as [n ->] by (exists (Z.to_nat (p' - p)); lia).
  clear Hle. induction n as [|n IH].
  - rewrite Z.add_0_r.
    assert (∃ a, light_weight p = Some a) as [a Ha].
    { destruct (decide (p < 255)) as [Hlt|Hge].
      - destruct (light_weight_step p) as (a & _ & Ha & _); [lia|eauto].
      - destruct (light_weight_step 254) as (_ & b & _ & Hb & _); [lia|].
        replace p with (254 + 1) by lia. eauto. }
    exists a, a. split_and!; [done..|lia].
  - destruct IH as (a & b & Ha & Hb & Hab); [lia|].
    destruct (light_weight_step (p + Z.of_nat n)) as (b' & d & Hb' & Hd & Hbd); [lia|].
    rewrite Hb in Hb'. simplify_eq.
    replace (p + Z.of_nat (S n)) with (p + Z.of_nat n + 1) by lia.
    exists a, d. split_and!; [done..|lia].
Qed.

Example light_weight_at_0 : light_weight 0 = Some 38.
Proof. vm_compute. reflexivity. Qed.

Example light_weight_at_255 : light_weight 255 = Some 0.
Proof. vm_compute. reflexivity. Qed.

(** The two passes of lines 20 and 21 that make up [texel]. *)
Lemma texel_passes p t :
  texel p = Some t →
  ∃ d m, py_int (float_of_int p * 0.30)%float = Some d ∧
         light_weight p = Some m ∧
         t = blend_pixel m (blend_pixel d BASE_COLOR (RGBA 203 144 49 255))
               (RGBA 255 187 63 255).
Proof.
  unfold texel, light_weight. rewrite dark_tint_value, light_tint_value.
  cbn [mbind option_bind]. intros Ht.
  destruct (py_int (float_of_int p * 0.30)%float) as [d|]; [|done].
  cbn [mbind option_bind] in Ht.
  destruct (py_int (float_of_int (255 - p) * 0.15)%float) as [m|]; [|done].
  cbn [mbind option_bind] in Ht. exists d, m. split_and!; congruence.
Qed.

(** C8, as stated, fails twice. The light tint is not the base colour
    times 1.10: its red channel is 255, not 262.9. And the light tint does
    not go to the high-noise regions: on the noise field that is 255
    everywhere it is pasted with weight 0, and every pixel, here the one
    at the origin, is (228, 162, 55), darker than the base colour
    (239, 170, 58) in each channel. *)
Lemma light_tint_claim_fails :
  (∃ l, light_tint = Some l ∧
        py_int (float_of_int 239 * 1.10)%float = Some 262 ∧
        Some (red l) ≠ py_int (float_of_int 239 * 1.10)%float ∧
        float_of_int (red l) ≠ (float_of_int 239 * 1.10)%float) ∧
  (∃ tex t, build_sandstone_background high_noise = Some tex ∧
            light_weight 255 = Some 0 ∧
            px_get tex (0, 0) = Some t ∧
            t = RGBA 228 162 55 255 ∧
            red t < red BASE_COLOR ∧ green t < green BASE_COLOR ∧
            blue t < blue BASE_COLOR).
Proof.
  split; [exact light_tint_red_not_scaled|].
  destruct (background_pixel_at high_noise (0, 0) 255) as (tex & t & Hrun & Ht & Hpx).
  - apply high_noise_wf.
  - reflexivity.
  - unfold inb, W, H; simpl; lia.
  - vm_compute. reflexivity.
  - rewrite texel_darkest in Ht. injection Ht as <-.
    exists tex, (RGBA 228 162 55 255).
    split_and!; [done|apply light_weight_at_255|done|done|simpl; lia..].
Qed.

(** C8, amended: the light tint is each channel of the base colour times
    1.10, truncated to an integer and clamped to at most 255, that is
    (255, 187, 63, 255) with the red channel clamped; and background
    synthesis lightens toward it in the low-noise regions: on a pixel
    whose noise byte is [p] the tint is pasted, over the result of the
    dark pass, with weight [int((255 - p) * 0.15)] out of 255, which is 38
    at noise 0, falls as the noise rises and is 0 at noise 255. *)
Theorem light_tint_clamped_low_noise noise c c' p p' :
  wf_band noise → bsize noise = (W, H) → inb W H c → inb W H c' →
  cell (brows noise) c = Some p → cell (brows noise) c' = Some p' → p ≤ p' →
  (∃ r g b,
     py_int (float_of_int (red BASE_COLOR) * 1.10)%float = Some r ∧
     py_int (float_of_int (green BASE_COLOR) * 1.10)%float = Some g ∧
     py_int (float_of_int (blue BASE_COLOR) * 1.10)%float = Some b ∧
     light_tint = Some (RGBA (Z.min 255 r) (Z.min 255 g) (Z.min 255 b) 255) ∧
     (r, g, b) = (262, 187, 63) ∧
     light_tint = Some (RGBA 255 187 63 255)) ∧
  ∃ tex d d' m m',
    build_sandstone_background noise = Some tex ∧
    py_int (float_of_int p * 0.30)%float = Some d ∧
    py_int (float_of_int p' * 0.30)%float = Some d' ∧
    light_weight p = Some m ∧ light_weight p' = Some m' ∧
    px_get tex c =
      Some (blend_pixel m (blend_pixel d BASE_COLOR (RGBA 203 144 49 255))
              (RGBA 255 187 63 255)) ∧
    px_get tex c' =
      Some (blend_pixel m' (blend_pixel d' BASE_COLOR (RGBA 203 144 49 255))
              (RGBA 255 187 63 255)) ∧
    0 ≤ m' ∧ m' ≤ m ∧ m ≤ 38 ∧
    (p = 0 → m = 38) ∧ (p' = 255 → m' = 0).
Proof.
  intros Hwf Hsz Hc Hc' Hp Hp' Hle. split; [exact light_tint_channels|].
  pose proof (wf_band_byte _ _ _ Hwf Hp). pose proof (wf_band_byte _ _ _ Hwf Hp').
  destruct (background_pixel_at noise c p Hwf Hsz Hc Hp) as (tex & t & Hrun & Ht & Hpx).
  destruct (background_pixel_at noise c' p' Hwf Hsz Hc' Hp') as (tex' & t' & Hrun' & Ht' & Hpx').
  rewrite Hrun in Hrun'. injection Hrun' as <-.
  destruct (texel_passes p t Ht) as (d & m & Hd & Hm & ->).
  destruct (texel_passes p' t' Ht') as (d' & m' & Hd' & Hm' & ->).
  assert (0 ≤ m' ∧ m' ≤ m ∧ m ≤ 38) as (Hm0 & Hmm & Hm38).
  { clear Hrun Hpx Hpx' Ht Ht'. split_and!.
    - destruct (light_weight_monotone p' 255) as (a & b & Ha & Hb & Hab); [lia..|].
      rewrite light_weight_at_255 in Hb. rewrite Hm' in Ha.
      injection Ha as <-. injection Hb as <-. exact Hab.
    - destruct (light_weight_monotone p p') as (a & b & Ha & Hb & Hab); [lia..|].
      rewrite Hm in Ha. rewrite Hm' in Hb.
      injection Ha as <-. injection Hb as <-. exact Hab.
    - destruct (light_weight_monotone 0 p) as (a & b & Ha & Hb & Hab); [lia..|].
      rewrite light_weight_at_0 in Ha. rewrite Hm in Hb.
      injection Ha as <-. injection Hb as <-. exact Hab. }
  exists tex, d, d', m, m'.
  repeat (split; [assumption|]). split.
  - intros ->. rewrite light_weight_at_0 in Hm. by injection Hm as <-.
  - intros ->. rewrite light_weight_at_255 in Hm'. by injection Hm' as <-.
Qed.

Lemma light_tint_clamped_low_noise_witness :
  ∃ tex d d' m m',
    build_sandstone_background ramp_noise = Some tex ∧
    py_int (float_of_int 0 * 0.30)%float = Some d ∧
    py_int (float_of_int 255 * 0.30)%float = Some d' ∧
    light_weight 0 = Some m ∧ light_weight 255 = Some m' ∧
    px_get tex (0, 0) =
      Some (blend_pixel m (blend_pixel d BASE_COLOR (RGBA 203 144 49 255))
              (RGBA 255 187 63 255)) ∧
    px_get tex (255, 7) =
      Some (blend_pixel m' (blend_pixel d' BASE_COLOR (RGBA 203 144 49 255))
              (RGBA 255 187 63 255)) ∧
    0 ≤ m' ∧ m' ≤ m ∧ m ≤ 38 ∧
    (0 = 0 → m = 38) ∧ (255 = 255 → m' = 0).
Proof.
  apply (light_tint_clamped_low_noise ramp_noise (0, 0) (255, 7) 0 255).
  - apply ramp_noise_wf.
  - reflexivity.
  - unfold inb, W, H; simpl; lia.
  - unfold inb, W, H; simpl; lia.
  - vm_compute. reflexivity.
  - vm_compute. reflexivity.
  - lia.
Defined.
